(** * The site crawler of [src/crawler.mjs]

    A shallow embedding of [crawlSite]: the module-level [visited] set and
    [queue], the FIFO loop over the frontier, the per-page extraction done
    through cheerio and the same-host link filter.

    Strings are sequences of code units; the development keeps to code
    units below 256, one [ascii] each.  Numbers ([depth], [maxDepth], HTTP
    status codes) are integers.  What the program gets from outside the
    repository is kept apart:
    - the WHATWG [URL] constructor is a pair of parameters
      ([url_hostname], [url_resolve]), [None] standing for the [TypeError]
      it throws;
    - the network is a function [web] from the requested URL to what
      [axios.get] settles with (a call requests no URL twice, so a
      function loses nothing), and each call may meet another [web];
    - a response body is the element tree [cheerio.load] builds from it.

    Calls are taken one after another; what overlapping calls do to the
    shared queue is outside this model. *)

From Stdlib Require Import ZArith Lia Ascii.
From Stdlib Require String.
From stdpp Require Import base option list sorting gmap strings.

Local Open Scope Z_scope.

(** ** JavaScript string primitives *)

Module Js.

(** [s.startsWith(p)] *)
Definition startsWith (s p : string) : bool := String.prefix p s.

(** [s.includes(p)] *)
Fixpoint includes (s p : string) : bool :=
  String.prefix p s ||
  match s with
  | EmptyString => false
  | String _ s' => includes s' p
  end.

(** White space and line terminators of [String.prototype.trim] among
    the code units below 256: TAB, LF, VT, FF, CR, SP and NBSP. *)
Definition is_space (c : ascii) : bool :=
  let n := N_of_ascii c in
  (((9 <=? n) && (n <=? 13)) || (n =? 32) || (n =? 160))%N.

Fixpoint trimStart (s : string) : string :=
  match s with
  | EmptyString => EmptyString
  | String c s' => if is_space c then trimStart s' else s
  end.

Fixpoint trimEnd (s : string) : string :=
  match s with
  | EmptyString => EmptyString
  | String c s' =>
      match trimEnd s' with
      | EmptyString => if is_space c then EmptyString else String c EmptyString
      | t => String c t
      end
  end.

(** [s.trim()] *)
Definition trim (s : string) : string := trimEnd (trimStart s).

(** [x || ''] for [x] a string or [undefined] *)
Definition or_empty (x : option string) : string := default "" x.

(** Truthiness of a string: every string but the empty one. *)
Definition truthy (s : string) : bool :=
  match s with EmptyString => false | _ => true end.

(** The lower-case form of a code unit below 256: [A]-[Z], and the
    accented capitals 192-222 but for the multiplication sign 215. *)
Definition lower_unit (c : ascii) : ascii :=
  let n := N_of_ascii c in
  if (((65 <=? n) && (n <=? 90))
      || ((192 <=? n) && (n <=? 222) && negb (n =? 215)))%N
  then ascii_of_N (n + 32)
  else c.

(** [s.toLowerCase()] *)
Fixpoint toLowerCase (s : string) : string :=
  match s with
  | EmptyString => EmptyString
  | String c s' => String (lower_unit c) (toLowerCase s')
  end.

End Js.

(** ** Documents and the cheerio calls the crawler makes *)

#[warnings="-register-all"]
Inductive node : Type :=
| Text (s : string)
| Elem (tag : string) (attrs : list (string * string)) (kids : list node).

(** The document [cheerio.load] returns: the nodes below the root. *)
Definition Dom : Type := list node.

(** The three selector shapes of the source: [tag], [tag[a]] and
    [tag[a="v"]]. *)
Inductive selector : Type :=
| Tag (t : string)
| TagAttr (t a : string)
| TagAttrEq (t a v : string).

(** Induction on documents, with the hypothesis for every child. *)
Fixpoint node_kids_ind (P : node -> Prop)
    (HText : forall s, P (Text s))
    (HElem : forall t attrs ks, Forall P ks -> P (Elem t attrs ks))
    (n : node) {struct n} : P n :=
  match n with
  | Text s => HText s
  | Elem t attrs ks =>
      HElem t attrs ks
        ((fix kids (l : list node) : Forall P l :=
            match l with
            | [] => @List.Forall_nil _ P
            | k :: l' =>
                @List.Forall_cons _ P k l' (node_kids_ind P HText HElem k) (kids l')
            end) ks)
  end.

Definition tag_of (n : node) : option string :=
  match n with Text _ => None | Elem t _ _ => Some t end.

Module Cheerio.

Fixpoint lookup_attr (a : string) (attrs : list (string * string)) : option string :=
  match attrs with
  | [] => None
  | (k, v) :: rest => if String.eqb k a then Some v else lookup_attr a rest
  end.

Definition sel_tag (s : selector) : string :=
  match s with Tag t | TagAttr t _ | TagAttrEq t _ _ => t end.

(** The attributes whose value a selector matches without regard to
    letter case in an HTML document. *)
Definition caseInsensitiveAttributes : list string :=
  ["accept"; "accept-charset"; "align"; "alink"; "axis"; "bgcolor"; "charset";
   "checked"; "clear"; "codetype"; "color"; "compact"; "declare"; "defer"; "dir";
   "direction"; "disabled"; "enctype"; "face"; "frame"; "hreflang"; "http-equiv";
   "lang"; "language"; "link"; "media"; "method"; "multiple"; "nohref"; "noresize";
   "noshade"; "nowrap"; "readonly"; "rel"; "rev"; "rules"; "scope"; "scrolling";
   "selected"; "shape"; "target"; "text"; "type"; "valign"; "valuetype"; "vlink"].

(** [[a="v"]] on an element whose attribute [a] is [w]: the values are
    compared as they stand, or in lower case for the attributes above
    (so [rel="Canonical"] matches [link[rel="canonical"]], and
    [name="Description"] does not match [meta[name="description"]]). *)
Definition value_matches (a v w : string) : bool :=
  if existsb (String.eqb a) caseInsensitiveAttributes
  then String.eqb (Js.toLowerCase w) (Js.toLowerCase v)
  else String.eqb w v.

Definition sel_attrs (s : selector) (attrs : list (string * string)) : bool :=
  match s with
  | Tag _ => true
  | TagAttr _ a => bool_decide (is_Some (lookup_attr a attrs))
  | TagAttrEq _ a v =>
      match lookup_attr a attrs with
      | Some w => value_matches a v w
      | None => false
      end
  end.

Definition matches (s : selector) (tag : string) (attrs : list (string * string)) : bool :=
  String.eqb tag (sel_tag s) && sel_attrs s attrs.

(** The elements below (and including) [n] that match, in document order. *)
Fixpoint select_node (s : selector) (n : node) : list node :=
  match n with
  | Text _ => []
  | Elem t a ks =>
      (if matches s t a then [n] else []) ++ concat (map (select_node s) ks)
  end.

(** [$(selector)] *)
Definition select (s : selector) (d : Dom) : list node :=
  concat (map (select_node s) d).

Fixpoint text_of (n : node) : string :=
  match n with
  | Text s => s
  | Elem _ _ ks => String.concat "" (map text_of ks)
  end.

(** [.text()]: the combined text of every element of the selection. *)
Definition text (els : list node) : string := String.concat "" (map text_of els).

Definition attr_of (a : string) (n : node) : option string :=
  match n with
  | Text _ => None
  | Elem _ attrs _ => lookup_attr a attrs
  end.

(** [.attr(a)]: the attribute of the first element of the selection,
    [undefined] on an empty selection or a missing attribute. *)
Definition attr (a : string) (els : list node) : option string :=
  match els with
  | [] => None
  | e :: _ => attr_of a e
  end.

(** [.map((i, el) => $(el).attr(a)).get()]: [undefined] results are left
    out. *)
Definition map_attr (a : string) (els : list node) : list string :=
  omap (attr_of a) els.

End Cheerio.

(** ** Records of the report *)

(** [res.status], or what [err.response?.status || 'Erro'] evaluates to. *)
Inductive Status : Type :=
| Code (c : Z)
| Erro.

Record PageSignals : Type := mkSignals {
  title : string;
  description : string;
  h1 : nat;
  h2 : nat;
  canonical : string;
  noindex : bool
}.

(** A record of the report; the content fields are there on the success
    path only. *)
Record PageRecord : Type := mkRecord {
  url : string;
  status : Status;
  signals : option PageSignals;
  depth : Z
}.

Record FrontierItem : Type := mkItem {
  item_url : string;
  item_depth : Z
}.

(** What [axios.get] settles with: a response, or a rejection whose
    [err.response?.status] may be missing. *)
Inductive fetch_result : Type :=
| Response (code : Z) (body : Dom)
| Rejected (response_status : option Z).

(** Lines 23-28. *)
Definition extract (d : Dom) : PageSignals :=
  {| title := Js.trim (Cheerio.text (Cheerio.select (Tag "title") d));
     description :=
       Js.or_empty (Cheerio.attr "content" (Cheerio.select (TagAttrEq "meta" "name" "description") d));
     h1 := length (Cheerio.select (Tag "h1") d);
     h2 := length (Cheerio.select (Tag "h2") d);
     canonical :=
       Js.or_empty (Cheerio.attr "href" (Cheerio.select (TagAttrEq "link" "rel" "canonical") d));
     noindex :=
       match Cheerio.attr "content" (Cheerio.select (TagAttrEq "meta" "name" "robots") d) with
       | Some c => Js.includes c "noindex"
       | None => false
       end |}.

(** Line 30. *)
Definition success_record (u : string) (code : Z) (d : Dom) (dep : Z) : PageRecord :=
  {| url := u; status := Code code; signals := Some (extract d); depth := dep |}.

(** [err.response?.status || 'Erro']: a missing status and the falsy
    status 0 both give the marker. *)
Definition error_status (response_status : option Z) : Status :=
  match response_status with
  | Some c => if c =? 0 then Erro else Code c
  | None => Erro
  end.

(** Line 47. *)
Definition failure_record (u : string) (response_status : option Z) (dep : Z) : PageRecord :=
  {| url := u; status := error_status response_status; signals := None; depth := dep |}.

(** [p.status === c]: the status is the number [c], not the marker. *)
Definition status_is (c : Z) (r : PageRecord) : bool :=
  match status r with
  | Code c' => c' =? c
  | Erro => false
  end.

(** The status is a number. *)
Definition coded (r : PageRecord) : bool :=
  match status r with
  | Code _ => true
  | Erro => false
  end.

(** ** The crawler *)

(** The module-level state of lines 5-6: it outlives a call. *)
Record Global : Type := mkGlobal {
  visited : gset string;
  queue : list FrontierItem
}.

(** The state of one run of the loop: the module-level state, the report
    of this call, and a log of the URLs handed to [axios.get] (the log is
    not in the source; it makes the fetches observable). *)
Record Crawl : Type := mkCrawl {
  glob : Global;
  report : list PageRecord;
  fetched : list string
}.

(** How a call ends: the promise resolves with the report or rejects.
    [Unfinished] is the loop still running when the iteration bound is
    used up; [crawlSite_settles] shows that it never comes out. *)
Inductive outcome : Type :=
| Returned (rep : list PageRecord)
| Thrown
| Unfinished.

(** Line 35. *)
Definition navigable (href : string) : bool :=
  Js.truthy href && negb (Js.startsWith href "#")
  && negb (Js.startsWith href "mailto:") && negb (Js.startsWith href "tel:").

(** [Array.prototype.map] with a callback that may throw. *)
Fixpoint map_throwing {A B} (f : A -> option B) (l : list A) : option (list B) :=
  match l with
  | [] => Some []
  | x :: l' => y ← f x; ys ← map_throwing f l'; Some (y :: ys)
  end.

(** [Array.prototype.filter] with a callback that may throw. *)
Fixpoint filter_throwing {A} (p : A -> option bool) (l : list A) : option (list A) :=
  match l with
  | [] => Some []
  | x :: l' =>
      b ← p x; ys ← filter_throwing p l'; Some (if b : bool then x :: ys else ys)
  end.

(** The [href]s line 35 keeps. *)
Definition hrefs (d : Dom) : list string :=
  List.filter navigable (Cheerio.map_attr "href" (Cheerio.select (TagAttr "a" "href") d)).

Definition set_queue (q : list FrontierItem) (c : Crawl) : Crawl :=
  {| glob := {| visited := visited (glob c); queue := q |};
     report := report c; fetched := fetched c |}.

Definition push_report (r : PageRecord) (c : Crawl) : Crawl :=
  {| glob := glob c; report := report c ++ [r]; fetched := fetched c |}.

(** Lines 18 and 20: [visited.add(url)], then the request goes out. *)
Definition visit (u : string) (c : Crawl) : Crawl :=
  {| glob := {| visited := {[u]} ∪ visited (glob c); queue := queue (glob c) |};
     report := report c; fetched := fetched c ++ [u] |}.

(** Lines 41-45. *)
Definition enqueue (links : list string) (dep : Z) (c : Crawl) : Crawl :=
  set_queue
    (queue (glob c)
       ++ map (fun l => mkItem l (dep + 1))
            (filter (fun l => l ∉ visited (glob c)) links))
    c.

(** Line 9. *)
Definition push_seed (startUrl : string) (g : Global) : Global :=
  {| visited := visited g; queue := queue g ++ [mkItem startUrl 0] |}.

(** The state in which the loop is entered. *)
Definition start (startUrl : string) (g : Global) : Crawl :=
  {| glob := push_seed startUrl g; report := []; fetched := [] |}.

Module Crawler.

Section WithUrl.

(** [new URL(s).hostname] *)
Variable url_hostname : string -> option string.
(** [new URL(href, base).href] *)
Variable url_resolve : string -> string -> option string.

Section Run.

Variable web : string -> fetch_result.
Variable startUrl : string.
Variable baseDomain : string.
Variable maxDepth : Z.

(** Lines 36-38. *)
Definition absolute (href : string) : option string :=
  if Js.startsWith href "/" then url_resolve href startUrl else Some href.

(** Line 39, the test of one link; [None] when [new URL] throws. *)
Definition same_host (href : string) : option bool :=
  h ← url_hostname href; Some (bool_decide (h = baseDomain)).

(** Lines 32-39: the links of a page, [None] when the chain throws. *)
Definition page_links (d : Dom) : option (list string) :=
  resolved ← map_throwing absolute (hrefs d);
  filter_throwing same_host resolved.

(** Lines 16-48: the body of the loop for the item just shifted off the
    queue. *)
Definition body (it : FrontierItem) (c : Crawl) : Crawl :=
  let u := item_url it in
  let dep := item_depth it in
  if bool_decide (u ∈ visited (glob c)) || (maxDepth <? dep) then c
  else
    let c1 := visit u c in
    match web u with
    | Response code d =>
        let c2 := push_report (success_record u code d dep) c1 in
        match page_links d with
        | Some links => enqueue links dep c2
        | None => push_report (failure_record u None dep) c2
        end
    | Rejected rs => push_report (failure_record u rs dep) c1
    end.

(** Lines 14-49, with a bound on the number of iterations. *)
Fixpoint loop (fuel : nat) (c : Crawl) : option Crawl :=
  match queue (glob c) with
  | [] => Some c
  | it :: rest =>
      match fuel with
      | O => None
      | S fuel' => loop fuel' (body it (set_queue rest c))
      end
  end.

(** What the page at [u] can put on the queue. *)
Definition out_links (u : string) : list string :=
  match web u with
  | Response _ d => default [] (page_links d)
  | Rejected _ => []
  end.

(** Iterations an item can cause when [levels] more depths may be
    fetched below it. *)
Fixpoint cost (levels : nat) (u : string) : nat :=
  match levels with
  | O => 1
  | S n => S (sum_list_with (cost n) (out_links u))
  end.

Definition levels_of (dep : Z) : nat := Z.to_nat (maxDepth + 1 - dep).

Definition item_cost (it : FrontierItem) : nat :=
  cost (levels_of (item_depth it)) (item_url it).

Definition queue_cost (q : list FrontierItem) : nat :=
  sum_list_with item_cost q.

End Run.

(** Lines 8-52.  The result is the outcome of the call, the module-level
    state it leaves and the log of its requests. *)
Definition crawlSite (web : string -> fetch_result) (g : Global)
    (startUrl : string) (maxDepth : Z) : outcome * Global * list string :=
  let c0 := start startUrl g in
  match url_hostname startUrl with
  | None => (Thrown, glob c0, [])
  | Some baseDomain =>
      let fuel := queue_cost web startUrl baseDomain maxDepth (queue (glob c0)) in
      match loop web startUrl baseDomain maxDepth fuel c0 with
      | Some c => (Returned (report c), glob c, fetched c)
      | None => (Unfinished, glob c0, [])
      end
  end.

(** [crawlSite(startUrl)]: [maxDepth] defaults to 3. *)
Definition crawlSite_default (web : string -> fetch_result) (g : Global)
    (startUrl : string) : outcome * Global * list string :=
  crawlSite web g startUrl 3.

(** The module-level states a process can be in between two calls. *)
Inductive reachable : Global -> Prop :=
| reachable_fresh : reachable {| visited := ∅; queue := [] |}
| reachable_call web g startUrl maxDepth :
    reachable g -> reachable (crawlSite web g startUrl maxDepth).1.2.

(** [u] links to [v]: the page at [u] is fetched and [v] is one of the
    links lines 32-39 compute for it. *)
Definition links_to (web : string -> fetch_result) (startUrl baseDomain : string)
    (u v : string) : Prop :=
  exists code d links,
    web u = Response code d /\ page_links startUrl baseDomain d = Some links /\ v ∈ links.

(** A chain of [n] links from [u] to [v]. *)
Inductive link_path (web : string -> fetch_result) (startUrl baseDomain : string)
    (u : string) : nat -> string -> Prop :=
| path_here : link_path web startUrl baseDomain u O u
| path_step n v w :
    link_path web startUrl baseDomain u n v ->
    links_to web startUrl baseDomain v w ->
    link_path web startUrl baseDomain u (S n) w.

(** A kept [href] on which lines 36-39 throw. *)
Definition malformed (startUrl baseDomain : string) (href : string) : bool :=
  navigable href &&
  bool_decide (absolute startUrl href ≫= same_host baseDomain = None).

(** The records the body leaves for one requested URL: the success record,
    followed by the record of the [catch] block when the link chain
    throws, or the record of the [catch] block alone. *)
Definition records_for (web : string -> fetch_result) (startUrl baseDomain : string)
    (u : string) (dep : Z) : list PageRecord :=
  match web u with
  | Response code d =>
      success_record u code d dep
      :: match page_links startUrl baseDomain d with
         | Some _ => []
         | None => [failure_record u None dep]
         end
  | Rejected rs => [failure_record u rs dep]
  end.

End WithUrl.

End Crawler.

(** ** What the loop keeps

    The properties of a state of the loop that the proofs below carry
    from one iteration to the next. *)

Module Inv.

Section WithRun.

Variable url_hostname : string -> option string.
Variable url_resolve : string -> string -> option string.
Variable web : string -> fetch_result.
Variable startUrl baseDomain : string.
Variable maxDepth : Z.

Local Abbreviation link_path := (Crawler.link_path url_hostname url_resolve web startUrl baseDomain).

(** Between calls the queue holds nothing but the start URLs of calls
    that threw: depth 0, and no host name. *)
Definition leftover (it : FrontierItem) : Prop :=
  item_depth it = 0 /\ url_hostname (item_url it) = None.

(** No record is deeper than [maxDepth]. *)
Definition depth_bounded (c : Crawl) : Prop :=
  forall r, r ∈ report c -> depth r <= maxDepth.

(** A URL is on the start URL's host when it has a host at all. *)
Definition host_ok (u : string) : Prop :=
  forall h, url_hostname u = Some h -> h = baseDomain.

(** Queue and report hold only such URLs. *)
Definition scoped (c : Crawl) : Prop :=
  (forall it, it ∈ queue (glob c) -> host_ok (item_url it))
  /\ (forall r, r ∈ report c -> host_ok (url r)).

(** A chain of [dep] links joins [u] to the start URL. *)
Definition linked (u : string) (dep : Z) : Prop :=
  exists n : nat, dep = Z.of_nat n /\ link_path startUrl n u.

(** Queue and report hold only such URLs, at such depths. *)
Definition all_linked (c : Crawl) : Prop :=
  (forall it, it ∈ queue (glob c) -> linked (item_url it) (item_depth it))
  /\ (forall r, r ∈ report c -> linked (url r) (depth r)).

(** The report lies at depths up to [k], the queue at depths [k] and
    [k + 1], and both are sorted. *)
Definition breadth_first (c : Crawl) : Prop :=
  exists k,
    (forall r, r ∈ report c -> depth r <= k)
    /\ (forall it, it ∈ queue (glob c) -> k <= item_depth it <= k + 1)
    /\ StronglySorted Z.le (item_depth <$> queue (glob c))
    /\ StronglySorted Z.le (depth <$> report c).

(** The record is one the body builds from the answer to its URL. *)
Definition answered (r : PageRecord) : Prop :=
  match web (url r) with
  | Response code d =>
      r = success_record (url r) code d (depth r)
      \/ r = failure_record (url r) None (depth r)
  | Rejected rs => r = failure_record (url r) rs (depth r)
  end.

(** Every record is answered, and the records are those of the requested
    URLs. *)
Definition faithful (c : Crawl) : Prop :=
  (forall r, r ∈ report c -> answered r)
  /\ (forall u, u ∈ fetched c <-> exists r, r ∈ report c /\ url r = u).

(** No URL was requested twice, and what was requested is in [visited]. *)
Definition once (c : Crawl) : Prop :=
  NoDup (fetched c) /\ (forall u, u ∈ fetched c -> u ∈ visited (glob c)).

(** The URLs of [V] stay visited and out of the report. *)
Definition shuns (V : gset string) (c : Crawl) : Prop :=
  V ⊆ visited (glob c) /\ (forall r, r ∈ report c -> url r ∉ V).

(** [u] is visited, or queued within the depth bound. *)
Definition pending (u : string) (c : Crawl) : Prop :=
  u ∈ visited (glob c)
  \/ exists it, it ∈ queue (glob c) /\ item_url it = u /\ item_depth it <= maxDepth.

(** The report is the requested URLs in the order of the requests, each
    with the records its answer gives, at some depth. *)
Definition transcript (c : Crawl) : Prop :=
  exists deps : list Z,
    length deps = length (fetched c)
    /\ report c
       = concat (zip_with (Crawler.records_for url_hostname url_resolve web startUrl baseDomain)
                   (fetched c) deps).

(** [visited] is what it was at [V] with the requested URLs added, and no
    requested URL was in [V]. *)
Definition bookkept (V : gset string) (c : Crawl) : Prop :=
  visited (glob c) = V ∪ list_to_set (fetched c)
  /\ (forall u, u ∈ fetched c -> u ∉ V).

(** Nothing was requested or reported, and no queued depth is negative. *)
Definition idle (V : gset string) (c : Crawl) : Prop :=
  report c = [] /\ fetched c = [] /\ visited (glob c) = V
  /\ (forall it, it ∈ queue (glob c) -> 0 <= item_depth it).

End WithRun.

End Inv.

(** ** The audit of one page ([auditoriaAvancada], lines 83-144)

    What the audit gets from outside is a [World]: the text of
    [robots.txt], the answer to the request with [redirect: 'manual'], and
    what the page evaluated in the browser returns.  Each is keyed by the
    audited URL, and [None] stands for a rejected promise. *)

Module Auditoria.

(** The values of [tipo], in the order of the source: 'Bloqueado por
    robots.txt', 'Erro ao acessar robots.txt', 'Erro 404', 'Loop de
    redirecionamento', 'Erro de conexão', 'Título ausente', 'Meta
    description ausente', 'Excesso de H1', 'Sem H2', 'Imagens sem alt'. *)
Inductive Tipo : Type :=
| BloqueadoPorRobots
| ErroAoAcessarRobots
| Erro404
| LoopDeRedirecionamento
| ErroDeConexao
| TituloAusente
| MetaDescriptionAusente
| ExcessoDeH1
| SemH2
| ImagensSemAlt.

#[global] Instance Tipo_eq_dec : EqDecision Tipo.
Proof. solve_decision. Defined.

(** An entry of [erros]: [{ tipo, url }], with [quantidade] for the
    images. *)
Record erro : Type := mkErro {
  tipo : Tipo;
  quantidade : option nat;
  url : string
}.

(** The object [page.evaluate] returns (lines 118-126). *)
Record meta : Type := mkMeta {
  title : string;
  description : string;
  h1 : nat;
  h2 : nat;
  imgsSemAlt : nat
}.

Record World : Type := mkWorld {
  (** [fetch(robotsUrl)] followed by [res.text()], during the audit of the
      page given first *)
  robots_txt : string -> string -> option string;
  (** [fetch(url, { redirect: 'manual' })]: the status and the [location]
      header *)
  manual_fetch : string -> option (Z * option string);
  (** lines 114-126 and 141: the browser is launched, the page loaded and
      evaluated, the browser closed *)
  inspect : string -> option meta;
  (** whether the audit of the page settles within the 20000 ms of
      [auditoriaComTimeout] *)
  in_time : string -> bool
}.

Section WithUrl.

(** [new URL(href, base).href] *)
Variable url_resolve : string -> string -> option string.
(** [new URL(s).pathname] *)
Variable url_pathname : string -> option string.

(** Lines 87-96. *)
Definition robots_check (w : World) (u : string) : list erro :=
  match
    robotsUrl ← url_resolve "/robots.txt" u;
    robotsTxt ← robots_txt w u robotsUrl;
    path ← url_pathname u;
    Some (Js.includes robotsTxt ("Disallow: " +:+ path))
  with
  | Some true => [mkErro BloqueadoPorRobots None u]
  | Some false => []
  | None => [mkErro ErroAoAcessarRobots None u]
  end.

(** Lines 99-111. *)
Definition status_check (w : World) (u : string) : list erro :=
  match manual_fetch w u with
  | Some (st, location) =>
      if st =? 404 then [mkErro Erro404 None u]
      else if (300 <=? st) && (st <? 400) then
        if bool_decide (location = Some u)
        then [mkErro LoopDeRedirecionamento None u]
        else []
      else []
  | None => [mkErro ErroDeConexao None u]
  end.

(** Lines 128-138. *)
Definition meta_checks (u : string) (m : meta) : list erro :=
  (if Js.truthy (title m) then [] else [mkErro TituloAusente None u])
  ++ (if Js.truthy (description m) then [] else [mkErro MetaDescriptionAusente None u])
  ++ (if (1 <? h1 m)%nat then [mkErro ExcessoDeH1 None u] else [])
  ++ (if (h2 m =? 0)%nat then [mkErro SemH2 None u] else [])
  ++ (if (0 <? imgsSemAlt m)%nat
      then [mkErro ImagensSemAlt (Some (imgsSemAlt m)) u] else []).

(** Lines 83-144.  The two requests are made first; when the browser
    then fails the promise rejects and what was found is lost. *)
Definition auditoriaAvancada (w : World) (u : string) : option (list erro) :=
  let found := robots_check w u ++ status_check w u in
  m ← inspect w u;
  Some (found ++ meta_checks u m).

(** Lines 187-192: the audit raced against the timer. *)
Definition auditoriaComTimeout (w : World) (u : string) : option (list erro) :=
  if in_time w u then auditoriaAvancada w u else None.

End WithUrl.

End Auditoria.

(** ** The route [/api/auditar] (lines 147-244)

    Lighthouse is a function from the URL to [result.lhr], which fails
    when anything of lines 155-176 throws; [summarize] is the part of lines
    209-219 that reads the scores off it, which is evaluated after the
    crawl and the audits and throws on a missing field.  The insertion
    into the database comes after the reply is sent and is left out. *)

Module Route.

Local Abbreviation page_url := url.

Section WithServices.

Variable url_hostname : string -> option string.
Variable url_resolve : string -> string -> option string.
Variable url_pathname : string -> option string.
Variables Lhr Scores : Type.

Record Services : Type := mkServices {
  lighthouse : string -> option Lhr;
  summarize : Lhr -> option Scores;
  web : string -> fetch_result;
  world : Auditoria.World
}.

(** The object of lines 209-224. *)
Record relatorio : Type := mkRelatorio {
  url : string;
  scores : Scores;
  errosAvancados : list Auditoria.erro;
  rastreamento : list PageRecord;
  urls404 : list string
}.

Inductive reply : Type :=
| BadRequest
| Ok (r : relatorio)
| ServerError.

(** Lines 182-184. *)
Definition paginasAuditadas (rastreamento : list PageRecord) : list PageRecord :=
  take 10 (List.filter (status_is 200) rastreamento).

(** Lines 194-201: the errors of the pages whose audit settles in time;
    the other pages are passed over. *)
Definition audit_pages (w : Auditoria.World) (paginas : list PageRecord)
    : list Auditoria.erro :=
  concat (map (fun pagina =>
                 default [] (Auditoria.auditoriaComTimeout url_resolve url_pathname w
                               (page_url pagina)))
            paginas).

(** Lines 204-206. *)
Definition select404 (erros : list Auditoria.erro) : list string :=
  map Auditoria.url
    (List.filter (fun e => bool_decide (Auditoria.tipo e = Auditoria.Erro404)) erros).

(** Lines 147-244.  [u] is [req.body.url], [None] when the body has no
    [url]; the result is the reply and the module-level state of the
    crawler. *)
Definition auditar (sv : Services) (g : Global) (u : option string) : reply * Global :=
  match u with
  | None => (BadRequest, g)
  | Some u =>
      if negb (Js.truthy u) || negb (Js.startsWith u "http") then (BadRequest, g)
      else
        match lighthouse sv u with
        | None => (ServerError, g)
        | Some lhr =>
            match Crawler.crawlSite_default url_hostname url_resolve (web sv) g u with
            | (Returned rep, g', _) =>
                let erros := audit_pages (world sv) (paginasAuditadas rep) in
                match summarize sv lhr with
                | Some sc =>
                    (Ok {| url := u; scores := sc; errosAvancados := erros;
                           rastreamento := rep; urls404 := select404 erros |},
                     g')
                | None => (ServerError, g')
                end
            | (_, g', _) => (ServerError, g')
            end
        end
  end.

End WithServices.

Arguments lighthouse {Lhr Scores} _.
Arguments summarize {Lhr Scores} _.
Arguments web {Lhr Scores} _.
Arguments world {Lhr Scores} _.
Arguments url {Scores} _.
Arguments scores {Scores} _.
Arguments errosAvancados {Scores} _.
Arguments rastreamento {Scores} _.
Arguments urls404 {Scores} _.
Arguments BadRequest {Scores}.
Arguments Ok {Scores} _.
Arguments ServerError {Scores}.

End Route.

(** ** A document without some of its links *)

Fixpoint remove_attr (a : string) (attrs : list (string * string)) : list (string * string) :=
  match attrs with
  | [] => []
  | (k, v) :: rest =>
      if String.eqb k a then remove_attr a rest else (k, v) :: remove_attr a rest
  end.

(** The [href] attribute is taken off every [a] element whose [href]
    satisfies [p]; the element and everything below it stay. *)
Fixpoint unlink_node (p : string -> bool) (n : node) : node :=
  match n with
  | Text s => Text s
  | Elem t attrs ks =>
      let attrs' :=
        if String.eqb t "a" then
          match Cheerio.lookup_attr "href" attrs with
          | Some h => if p h then remove_attr "href" attrs else attrs
          | None => attrs
          end
        else attrs in
      Elem t attrs' (map (unlink_node p) ks)
  end.

Definition unlink (p : string -> bool) (d : Dom) : Dom := map (unlink_node p) d.

(** ** A small URL library and two sites, for concrete runs

    [Toy.hostname] and [Toy.resolve] follow the WHATWG parser on the
    strings used below, which are of the form [http://host:port/path] or
    [https://...] with the scheme in lower case, or have no scheme at all:
    the host name is the host in lower case without scheme and port, a
    root-relative [href] resolves to the origin of the base followed by the
    [href], and a string without a scheme does not parse. *)

Module Toy.

Fixpoint until_slash (s : string) : string :=
  match s with
  | EmptyString => EmptyString
  | String c s' => if Ascii.eqb c "/" then EmptyString else String c (until_slash s')
  end.

Fixpoint until_colon (s : string) : string :=
  match s with
  | EmptyString => EmptyString
  | String c s' => if Ascii.eqb c ":" then EmptyString else String c (until_colon s')
  end.

(** From the first [/] on, [/] when there is none. *)
Fixpoint from_slash (s : string) : string :=
  match s with
  | EmptyString => "/"
  | String c s' => if Ascii.eqb c "/" then s else from_slash s'
  end.

Definition after_scheme (s : string) : option (string * string) :=
  if String.prefix "http://" s
  then Some ("http://", String.substring 7 (String.length s - 7) s)
  else if String.prefix "https://" s
  then Some ("https://", String.substring 8 (String.length s - 8) s)
  else None.

(** The scheme and the host with its port, in lower case. *)
Definition origin (s : string) : option (string * string) :=
  '(scheme, rest) ← after_scheme s;
  match until_slash rest with
  | EmptyString => None
  | h => Some (scheme, Js.toLowerCase h)
  end.

(** The host in lower case, without scheme and port; the empty string
    for a [javascript:] URL. *)
Definition hostname (s : string) : option string :=
  if String.prefix "javascript:" s then Some EmptyString
  else
    '(_, h) ← origin s;
    match until_colon h with
    | EmptyString => None
    | name => Some name
    end.

(** A [href] that begins with [//] keeps the scheme of the base and
    names its own host; one that begins with a single [/] keeps the
    origin of the base. *)
Definition resolve (href base : string) : option string :=
  '(scheme, h) ← origin base;
  if String.prefix "//" href then
    let rest := String.substring 2 (String.length href - 2) href in
    match until_slash rest with
    | EmptyString => None
    | h' => Some (scheme +:+ Js.toLowerCase h' +:+ from_slash rest)
    end
  else Some (scheme +:+ h +:+ href).

Definition crawlSite := Crawler.crawlSite hostname resolve.

Definition fresh : Global := {| visited := ∅; queue := [] |}.

Definition anchor (href : string) : node := Elem "a" [("href", href)] [Text "link"].

Definition page (ttl : string) (links : list string) : Dom :=
  [Elem "html" []
     [Elem "head" [] [Elem "title" [] [Text ttl]];
      Elem "body" [] (Elem "h1" [] [Text ttl] :: map anchor links)]].

Definition home : string := "http://a.test/".
Definition about : string := "http://a.test/about".
Definition team : string := "http://a.test/team".

(** A home page that links to [/about] (twice) and to another host;
    [/about] links to [/team] and back home; [/team] answers 404. *)
Definition site (u : string) : fetch_result :=
  if String.eqb u home then Response 200 (page " Home " ["/about"; "http://b.test/x"; "/about"; "#top"])
  else if String.eqb u about then Response 200 (page "About" ["/team"; "/"])
  else if String.eqb u team then Rejected (Some 404)
  else Rejected None.

(** The same site with a relative [href] on the home page: [new URL]
    throws on [page.html]. *)
Definition site_rel (u : string) : fetch_result :=
  if String.eqb u home then Response 200 (page "Home" ["page.html"; "/about"])
  else site u.

(** A home page whose links name the host of the start URL under another
    scheme, with a port, and in capitals, and name a subdomain of it. *)
Definition mixed_home : Dom :=
  page "Home" ["https://a.test/secure"; "http://a.test:8080/admin";
               "http://A.TEST/Upper"; "http://www.a.test/sub"].

Definition site_mixed (u : string) : fetch_result :=
  if String.eqb u home then Response 200 mixed_home else Rejected None.

(** A kept [href] of the home page on which [new URL] throws. *)
Definition bad_link : string -> bool := Crawler.malformed hostname resolve home "a.test".

(** [site_rel] with the relative [href] taken off the home page. *)
Definition site_unlinked (u : string) : fetch_result :=
  if String.eqb u home
  then Response 200 (unlink bad_link (page "Home" ["page.html"; "/about"]))
  else site u.

(** [site] as seen from a machine where the request for the string
    [bad], which is no URL, is answered locally with a page that links to
    [/team]. *)
Definition site_local (u : string) : fetch_result :=
  if String.eqb u "bad" then Response 200 (page "Local" ["/team"]) else site u.

(** The report of [crawlSite(home)] on [site], from a fresh process. *)
Definition site_report : list PageRecord :=
  [success_record home 200 (page " Home " ["/about"; "http://b.test/x"; "/about"; "#top"]) 0;
   success_record about 200 (page "About" ["/team"; "/"]) 1;
   failure_record team (Some 404) 2].

(** A document with two [title] elements. *)
Definition two_titles : Dom :=
  [Elem "html" []
     [Elem "head" [] [Elem "title" [] [Text "A"]; Elem "title" [] [Text "B"]];
      Elem "body" [] []]].

End Toy.

(** ** A small server around the first site, for concrete runs *)

Module ToyServer.

Fixpoint from_slash (s : string) : string :=
  match s with
  | EmptyString => "/"
  | String c s' => if Ascii.eqb c "/" then s else from_slash s'
  end.

(** The path of a lower-case [http://host/path]. *)
Definition pathname (s : string) : option string :=
  '(_, rest) ← Toy.after_scheme s; Some (from_slash rest).

(** [robots.txt] disallows [/team]; by the time of the audit [/about]
    answers 404; the browser loads the two pages. *)
Definition world : Auditoria.World :=
  {| Auditoria.robots_txt := fun _ _ => Some "User-agent: * Disallow: /team";
     Auditoria.manual_fetch := fun u =>
       if String.eqb u Toy.home then Some (200, None)
       else if String.eqb u Toy.about then Some (404, None)
       else None;
     Auditoria.inspect := fun u =>
       if String.eqb u Toy.home then Some (Auditoria.mkMeta "Home" "" 1 0 2)
       else if String.eqb u Toy.about then Some (Auditoria.mkMeta "" "About us" 2 1 0)
       else None;
     Auditoria.in_time := fun _ => true |}.

Definition services : Route.Services unit unit :=
  {| Route.lighthouse := fun _ => Some tt;
     Route.summarize := fun _ => Some tt;
     Route.web := Toy.site;
     Route.world := world |}.

Definition auditoriaAvancada := Auditoria.auditoriaAvancada Toy.resolve pathname.

Definition auditar := Route.auditar Toy.hostname Toy.resolve pathname unit unit.

(** The findings on the home page and on [/about]. *)
Definition erros_home : list Auditoria.erro :=
  [Auditoria.mkErro Auditoria.BloqueadoPorRobots None Toy.home;
   Auditoria.mkErro Auditoria.MetaDescriptionAusente None Toy.home;
   Auditoria.mkErro Auditoria.SemH2 None Toy.home;
   Auditoria.mkErro Auditoria.ImagensSemAlt (Some 2%nat) Toy.home].

Definition erros_about : list Auditoria.erro :=
  [Auditoria.mkErro Auditoria.Erro404 None Toy.about;
   Auditoria.mkErro Auditoria.TituloAusente None Toy.about;
   Auditoria.mkErro Auditoria.ExcessoDeH1 None Toy.about].

(** The report of the first request for the home page, and of the
    second. *)
Definition relatorio1 : Route.relatorio unit :=
  {| Route.url := Toy.home; Route.scores := tt;
     Route.errosAvancados := erros_home ++ erros_about;
     Route.rastreamento := Toy.site_report;
     Route.urls404 := [Toy.about] |}.

Definition relatorio2 : Route.relatorio unit :=
  {| Route.url := Toy.home; Route.scores := tt;
     Route.errosAvancados := [];
     Route.rastreamento := [];
     Route.urls404 := [] |}.

End ToyServer.

(** * Properties *)

(** ** The loop ends *)

Section Loop.

Variable url_hostname : string -> option string.
Variable url_resolve : string -> string -> option string.
Variable web : string -> fetch_result.
Variable startUrl baseDomain : string.
Variable maxDepth : Z.

Local Abbreviation page_links := (Crawler.page_links url_hostname url_resolve startUrl baseDomain).
Local Abbreviation body := (Crawler.body url_hostname url_resolve web startUrl baseDomain maxDepth).
Local Abbreviation loop := (Crawler.loop url_hostname url_resolve web startUrl baseDomain maxDepth).
Local Abbreviation out_links := (Crawler.out_links url_hostname url_resolve web startUrl baseDomain).
Local Abbreviation cost := (Crawler.cost url_hostname url_resolve web startUrl baseDomain).
Local Abbreviation item_cost := (Crawler.item_cost url_hostname url_resolve web startUrl baseDomain maxDepth).
Local Abbreviation queue_cost := (Crawler.queue_cost url_hostname url_resolve web startUrl baseDomain maxDepth).

Lemma cost_pos n u : (1 <= cost n u)%nat.
Proof. destruct n; simpl; lia. Qed.

Lemma sum_list_with_filter_le {A} (f : A -> nat) (P : A -> Prop)
    `{!forall x, Decision (P x)} (l : list A) :
  (sum_list_with f (filter P l) <= sum_list_with f l)%nat.
Proof.
  induction l as [|x l IH]; [done|].
  rewrite filter_cons. destruct (decide (P x)); simpl; lia.
Qed.

Lemma sum_list_with_fmap {A B} (f : B -> nat) (g : A -> B) (l : list A) :
  sum_list_with f (g <$> l) = sum_list_with (f ∘ g) l.
Proof. induction l as [|x l IH]; [done|]. cbn. by f_equal. Qed.

Lemma item_cost_fetchable it :
  item_depth it <= maxDepth ->
  item_cost it
  = S (sum_list_with (fun l => item_cost (mkItem l (item_depth it + 1)))
         (out_links (item_url it))).
Proof.
  intros Hd. unfold Crawler.item_cost, Crawler.levels_of. simpl.
  replace (Z.to_nat (maxDepth + 1 - item_depth it))
    with (S (Z.to_nat (maxDepth + 1 - (item_depth it + 1)))) by lia.
  reflexivity.
Qed.

(** One iteration makes the cost of the queue smaller. *)
Lemma body_queue_cost it rest c :
  (queue_cost (queue (glob (body it (set_queue rest c)))) < queue_cost (it :: rest))%nat.
Proof.
  unfold Crawler.body, Crawler.queue_cost. simpl sum_list_with.
  pose proof (cost_pos (Crawler.levels_of maxDepth (item_depth it)) (item_url it)) as Hpos.
  fold (item_cost it) in Hpos.
  destruct (bool_decide _ || _) eqn:Hguard; simpl.
  { lia. }
  apply orb_false_iff in Hguard as [_ Hd]. apply Z.ltb_ge in Hd.
  rewrite (item_cost_fetchable it Hd). unfold Crawler.out_links.
  destruct (web (item_url it)) as [code d|rs]; simpl; [|lia].
  destruct (page_links d) as [links|]; simpl; [|lia].
  rewrite sum_list_with_app, sum_list_with_fmap.
  pose proof (sum_list_with_filter_le
    (fun l => item_cost (mkItem l (item_depth it + 1)))
    (fun l => l ∉ {[item_url it]} ∪ visited (glob c)) links) as Hle.
  unfold compose. lia.
Qed.

Lemma loop_terminates fuel c :
  (queue_cost (queue (glob c)) <= fuel)%nat -> is_Some (loop fuel c).
Proof.
  revert c. induction fuel as [|fuel IH]; intros c Hfuel.
  - destruct c as [[v [|it rest]] rep log]; simpl in *; [eauto|].
    pose proof (cost_pos (Crawler.levels_of maxDepth (item_depth it)) (item_url it)).
    unfold Crawler.queue_cost, Crawler.item_cost in Hfuel. simpl in Hfuel. lia.
  - simpl. destruct (queue (glob c)) as [|it rest] eqn:Hq; [eauto|].
    apply IH. pose proof (body_queue_cost it rest c) as Hlt. lia.
Qed.

(** A property every iteration keeps holds when the loop is left, and the
    queue is empty then. *)
Lemma loop_invariant (P : Crawl -> Prop) :
  (forall it rest c, P (set_queue (it :: rest) c) -> P (body it (set_queue rest c))) ->
  forall fuel c c', P c -> loop fuel c = Some c' -> P c' /\ queue (glob c') = [].
Proof.
  intros Hstep. induction fuel as [|fuel IH]; intros c c' HP Hloop; simpl in Hloop.
  - destruct (queue (glob c)) eqn:Hq; [|done]. by simplify_eq.
  - destruct (queue (glob c)) as [|it rest] eqn:Hq; [by simplify_eq|].
    refine (IH _ _ (Hstep it rest c _) Hloop).
    destruct c as [[v q] rep log]. simpl in Hq. by subst q.
Qed.

(** The four ways through the body. *)
Lemma body_cases it c :
  let u := item_url it in
  let dep := item_depth it in
  ((u ∈ visited (glob c) \/ maxDepth < dep) /\ body it c = c)
  \/ ((u ∉ visited (glob c)) /\ dep <= maxDepth /\
      ((exists code d links,
          web u = Response code d /\ page_links d = Some links /\
          body it c
          = enqueue links dep (push_report (success_record u code d dep) (visit u c)))
       \/ (exists code d,
          web u = Response code d /\ page_links d = None /\
          body it c
          = push_report (failure_record u None dep)
              (push_report (success_record u code d dep) (visit u c)))
       \/ (exists rs,
          web u = Rejected rs /\
          body it c = push_report (failure_record u rs dep) (visit u c)))).
Proof.
  intros u dep. unfold Crawler.body. fold u dep.
  destruct (bool_decide (u ∈ visited (glob c))) eqn:Hv; simpl.
  { apply bool_decide_eq_true in Hv. left. eauto. }
  apply bool_decide_eq_false in Hv.
  destruct (maxDepth <? dep) eqn:Hd.
  { apply Z.ltb_lt in Hd. left. eauto. }
  apply Z.ltb_ge in Hd. right. split; [done|]. split; [done|].
  destruct (web u) as [code d|rs]; [|right; right; eauto].
  destruct (page_links d) as [links|] eqn:Hl.
  - left. exists code, d, links. eauto.
  - right. left. exists code, d. eauto.
Qed.

End Loop.

(** ** A call settles *)

Section Calls.

Variable url_hostname : string -> option string.
Variable url_resolve : string -> string -> option string.

Local Abbreviation crawlSite := (Crawler.crawlSite url_hostname url_resolve).
Local Abbreviation body := (Crawler.body url_hostname url_resolve).
Local Abbreviation reachable := (Crawler.reachable url_hostname url_resolve).
Local Abbreviation leftover := (Inv.leftover url_hostname).

Lemma crawlSite_thrown web g startUrl maxDepth :
  url_hostname startUrl = None ->
  crawlSite web g startUrl maxDepth = (Thrown, push_seed startUrl g, []).
Proof. intros H. unfold Crawler.crawlSite. by rewrite H. Qed.

(** With a start URL that parses the call returns; what every iteration
    keeps holds of the state it ends in. *)
Lemma crawlSite_run web g startUrl maxDepth baseDomain :
  url_hostname startUrl = Some baseDomain ->
  exists c,
    crawlSite web g startUrl maxDepth = (Returned (report c), glob c, fetched c)
    /\ queue (glob c) = []
    /\ forall P : Crawl -> Prop,
         (forall it rest c,
             P (set_queue (it :: rest) c) ->
             P (body web startUrl baseDomain maxDepth it (set_queue rest c))) ->
         P (start startUrl g) -> P c.
Proof.
  intros H. unfold Crawler.crawlSite. rewrite H.
  destruct (loop_terminates url_hostname url_resolve web startUrl baseDomain maxDepth
              _ (start startUrl g) (le_n _)) as [c Hc].
  rewrite Hc. exists c. split; [done|]. split.
  - by apply (loop_invariant _ _ _ _ _ _ (fun _ => True) (fun _ _ _ _ => I) _ _ _ I Hc).
  - intros P Hstep H0.
    by apply (loop_invariant _ _ _ _ _ _ P Hstep _ _ _ H0 Hc).
Qed.

(** A call never runs out of iterations: it throws exactly when the
    start URL does not parse, and returns otherwise. *)
Lemma crawlSite_settles web g startUrl maxDepth :
  match url_hostname startUrl with
  | None => (crawlSite web g startUrl maxDepth).1.1 = Thrown
  | Some _ => exists rep, (crawlSite web g startUrl maxDepth).1.1 = Returned rep
  end.
Proof.
  destruct (url_hostname startUrl) as [b|] eqn:H.
  - destruct (crawlSite_run web g startUrl maxDepth b H) as (c & -> & _). eauto.
  - by rewrite crawlSite_thrown.
Qed.

Lemma reachable_leftover g : reachable g -> Forall leftover (queue g).
Proof.
  induction 1 as [|web g startUrl maxDepth Hg IH]; [by constructor|].
  destruct (url_hostname startUrl) as [b|] eqn:H.
  - destruct (crawlSite_run web g startUrl maxDepth b H) as (c & Hc & Hq & _).
    rewrite Hc. simpl. rewrite Hq. constructor.
  - rewrite crawlSite_thrown by done. simpl.
    apply Forall_app. split; [done|]. by repeat constructor.
Qed.

End Calls.

(** ** What every iteration keeps *)

Section Invariants.

Variable url_hostname : string -> option string.
Variable url_resolve : string -> string -> option string.
Variable web : string -> fetch_result.
Variable startUrl baseDomain : string.
Variable maxDepth : Z.

Local Abbreviation page_links := (Crawler.page_links url_hostname url_resolve startUrl baseDomain).
Local Abbreviation body := (Crawler.body url_hostname url_resolve web startUrl baseDomain maxDepth).
Local Abbreviation links_to := (Crawler.links_to url_hostname url_resolve web startUrl baseDomain).
Local Abbreviation link_path := (Crawler.link_path url_hostname url_resolve web startUrl baseDomain).
Local Abbreviation depth_bounded := (Inv.depth_bounded maxDepth).
Local Abbreviation host_ok := (Inv.host_ok url_hostname baseDomain).
Local Abbreviation scoped := (Inv.scoped url_hostname baseDomain).
Local Abbreviation linked := (Inv.linked url_hostname url_resolve web startUrl baseDomain).
Local Abbreviation all_linked := (Inv.all_linked url_hostname url_resolve web startUrl baseDomain).
Local Abbreviation breadth_first := Inv.breadth_first.
Local Abbreviation faithful := (Inv.faithful web).
Local Abbreviation once := Inv.once.
Local Abbreviation shuns := Inv.shuns.
Local Abbreviation pending := (Inv.pending maxDepth).

Local Ltac body_split it c :=
  let Hv := fresh "Hv" in
  let Hd := fresh "Hd" in
  let Hw := fresh "Hw" in
  let Hl := fresh "Hl" in
  let code := fresh "code" in
  let d := fresh "d" in
  let links := fresh "links" in
  let rs := fresh "rs" in
  destruct (body_cases url_hostname url_resolve web startUrl baseDomain maxDepth it c)
    as [[Hv ->]
       |(Hv & Hd & [(code & d & links & Hw & Hl & ->)
                   |[(code & d & Hw & Hl & ->)|(rs & Hw & ->)]])];
  simpl in *.

(** *** Depths stay within the bound *)

Lemma depth_bounded_body it rest c :
  depth_bounded (set_queue (it :: rest) c) -> depth_bounded (body it (set_queue rest c)).
Proof.
  unfold Inv.depth_bounded. intros H. body_split it (set_queue rest c);
    intros r; rewrite ?elem_of_app, ?list_elem_of_singleton;
    intros Hr; destruct_or?; subst; simpl; auto.
Qed.

(** *** Every link of a page is on the start URL's host *)

Lemma filter_throwing_elem {A} (p : A -> option bool) l l' x :
  filter_throwing p l = Some l' -> x ∈ l' -> x ∈ l /\ p x = Some true.
Proof.
  revert l'. induction l as [|y l IH]; intros l' Hf Hx; simpl in Hf.
  - simplify_eq. by apply not_elem_of_nil in Hx.
  - destruct (p y) as [b|] eqn:Hy; simpl in Hf; [|done].
    destruct (filter_throwing p l) as [ys|]; simpl in Hf; [|done].
    simplify_eq. destruct b.
    + apply elem_of_cons in Hx as [->|Hx]; [by split; [left|]|].
      destruct (IH _ eq_refl Hx). split; [by right|done].
    + destruct (IH _ eq_refl Hx). split; [by right|done].
Qed.

Lemma page_links_same_host d links l :
  page_links d = Some links -> l ∈ links -> url_hostname l = Some baseDomain.
Proof.
  unfold Crawler.page_links. intros Hp Hl.
  destruct (map_throwing _ _) as [resolved|]; simpl in Hp; [|done].
  destruct (filter_throwing_elem _ _ _ _ Hp Hl) as [_ Hs].
  unfold Crawler.same_host in Hs. destruct (url_hostname l) as [h|]; simpl in Hs; [|done].
  injection Hs as Hs. by apply bool_decide_eq_true in Hs as ->.
Qed.

Lemma links_to_same_host u v : links_to u v -> url_hostname v = Some baseDomain.
Proof. intros (code & d & links & _ & Hl & Hv). eauto using page_links_same_host. Qed.

Lemma scoped_body it rest c :
  scoped (set_queue (it :: rest) c) -> scoped (body it (set_queue rest c)).
Proof.
  unfold Inv.scoped. simpl. intros [Hq Hr].
  assert (host_ok (item_url it)) as Hit by (apply Hq; left).
  assert (forall it', it' ∈ rest -> host_ok (item_url it')) as Hrest
    by (intros; apply Hq; by right).
  body_split it (set_queue rest c); (split; [|
    intros r; rewrite ?elem_of_app, ?list_elem_of_singleton;
    intros Hin; destruct_or?; subst; simpl; auto]); auto.
  intros it'. rewrite elem_of_app, list_elem_of_fmap.
  intros [?|(l & -> & Hin)]; [auto|].
  apply list_elem_of_filter in Hin as [_ Hin]. simpl.
  intros h Hh. rewrite (page_links_same_host _ _ _ Hl Hin) in Hh. congruence.
Qed.

(** *** Every record is linked from the start URL *)

Lemma all_linked_body it rest c :
  all_linked (set_queue (it :: rest) c) -> all_linked (body it (set_queue rest c)).
Proof.
  unfold Inv.all_linked. simpl. intros [Hq Hr].
  assert (linked (item_url it) (item_depth it)) as Hit by (apply Hq; left).
  assert (forall it', it' ∈ rest -> linked (item_url it') (item_depth it')) as Hrest
    by (intros; apply Hq; by right).
  body_split it (set_queue rest c); (split; [|
    intros r; rewrite ?elem_of_app, ?list_elem_of_singleton;
    intros Hin; destruct_or?; subst; simpl; auto]); auto.
  intros it'. rewrite elem_of_app, list_elem_of_fmap.
  intros [?|(l & -> & Hin)]; [auto|].
  apply list_elem_of_filter in Hin as [_ Hin]. simpl.
  destruct Hit as (n & Hn & Hpath).
  exists (S n). split; [lia|].
  eapply Crawler.path_step; [done|]. exists code, d, links. eauto.
Qed.

(** *** Depths never go down along the report *)

Lemma StronglySorted_const {A} (f : A -> Z) (k : Z) (l : list A) :
  (forall x, x ∈ l -> f x = k) -> StronglySorted Z.le (f <$> l).
Proof.
  induction l as [|x l IH]; intros H; [constructor|].
  csimpl. constructor.
  - apply IH. intros; apply H; by right.
  - apply Forall_forall. intros y [z [-> Hz]]%list_elem_of_fmap.
    rewrite (H x), (H z); [lia|by right|by left].
Qed.

Lemma StronglySorted_snoc_le (l : list Z) (k : Z) :
  StronglySorted Z.le l -> (forall x, x ∈ l -> x <= k) -> StronglySorted Z.le (l ++ [k]).
Proof.
  intros Hl Hk. apply StronglySorted_app_2; [|done|repeat constructor].
  intros x y Hx ->%list_elem_of_singleton. auto.
Qed.

Lemma breadth_first_body it rest c :
  breadth_first (set_queue (it :: rest) c) -> breadth_first (body it (set_queue rest c)).
Proof.
  unfold Inv.breadth_first. simpl. intros (k & Hrep & Hq & Hsq & Hsr).
  csimpl in Hsq. apply StronglySorted_cons in Hsq as [Hhd Hsq].
  rewrite Forall_forall in Hhd.
  assert (k <= item_depth it <= k + 1) as Hit by (apply Hq; left).
  assert (forall it', it' ∈ rest -> item_depth it <= item_depth it' <= item_depth it + 1)
    as Hrest.
  { intros it' Hin. split; [apply Hhd; by apply list_elem_of_fmap_2|].
    assert (item_depth it' <= k + 1) by (apply Hq; by right). lia. }
  assert (forall r, r ∈ report c -> depth r <= item_depth it) as Hrep'.
  { intros r Hr. specialize (Hrep r Hr). lia. }
  assert (forall x, x ∈ depth <$> report c -> x <= item_depth it) as Hrep''.
  { intros x [r [-> Hr]]%list_elem_of_fmap. auto. }
  exists (item_depth it).
  body_split it (set_queue rest c); rewrite ?fmap_app; csimpl.
  - done.
  - split_and!.
    + intros r [?| ->%list_elem_of_singleton]%elem_of_app; simpl; [auto|lia].
    + intros it' [?|[l [-> _]]%list_elem_of_fmap]%elem_of_app; simpl; [auto|lia].
    + apply StronglySorted_app_2; [|done|].
      * intros x y [it' [-> Hx]]%list_elem_of_fmap Hy.
        apply list_elem_of_fmap in Hy as [it'' [-> Hy]].
        apply list_elem_of_fmap in Hy as [l [-> _]]. simpl.
        apply (Hrest it' Hx).
      * apply (StronglySorted_const _ (item_depth it + 1)).
        by intros it' [l [-> _]]%list_elem_of_fmap.
    + by apply StronglySorted_snoc_le.
  - split_and!; [|done|done|].
    + intros r. rewrite !elem_of_app, !list_elem_of_singleton.
      intros [[?| ->]| ->]; simpl; [auto|lia|lia].
    + apply StronglySorted_snoc_le; [by apply StronglySorted_snoc_le|].
      intros x [?| ->%list_elem_of_singleton]%elem_of_app; [auto|lia].
  - split_and!; [|done|done|by apply StronglySorted_snoc_le].
    intros r [?| ->%list_elem_of_singleton]%elem_of_app; simpl; [auto|lia].
Qed.

Lemma StronglySorted_lookup_lt (l : list Z) i j x y :
  StronglySorted Z.le l -> l !! i = Some x -> l !! j = Some y -> (i < j)%nat -> x <= y.
Proof.
  intros Hs. revert i j. induction Hs as [|a l Hs IH Ha]; intros i j Hi Hj Hlt; [done|].
  destruct j as [|j]; [lia|]. simpl in Hj. destruct i as [|i]; simpl in Hi.
  - simplify_eq. rewrite Forall_forall in Ha. apply Ha.
    by apply list_elem_of_lookup_2 in Hj.
  - apply (IH i j); [done|done|lia].
Qed.

(** *** A record says what the request of its URL gave *)

Lemma faithful_body it rest c :
  faithful (set_queue (it :: rest) c) -> faithful (body it (set_queue rest c)).
Proof.
  unfold Inv.faithful. simpl. intros [Hans Hlog].
  body_split it (set_queue rest c); [done|..];
    (split;
     [intros r; rewrite ?elem_of_app, ?list_elem_of_singleton;
      intros Hin; destruct_or?; subst; auto;
      unfold Inv.answered; simpl; rewrite Hw; auto
     |intros u; rewrite ?elem_of_app, ?list_elem_of_singleton, Hlog; split;
      [intros [(r & Hr & Hu)| ->]; [exists r; rewrite ?elem_of_app; auto|];
       eexists; rewrite ?elem_of_app, ?list_elem_of_singleton; split; [right; done|done]
      |intros (r & Hr & <-); revert Hr;
       rewrite ?elem_of_app, ?list_elem_of_singleton;
       intros Hr; destruct_or?; subst; simpl; eauto]]).
Qed.

(** *** No request goes out twice *)

Lemma once_body it rest c :
  once (set_queue (it :: rest) c) -> once (body it (set_queue rest c)).
Proof.
  unfold Inv.once. simpl. intros [Hnd Hsub].
  body_split it (set_queue rest c); [done|..];
    (split;
     [apply NoDup_app; split_and!; [done| |apply NoDup_singleton];
      intros u Hu ->%list_elem_of_singleton; auto
     |intros u [?| ->%list_elem_of_singleton]%elem_of_app; set_solver]).
Qed.

(** *** What was visited stays out of the report *)

Lemma shuns_body V it rest c :
  shuns V (set_queue (it :: rest) c) -> shuns V (body it (set_queue rest c)).
Proof.
  unfold Inv.shuns. simpl. intros [Hsub Hrep].
  body_split it (set_queue rest c); [done|..];
    (split; [set_solver|];
     intros r; rewrite ?elem_of_app, ?list_elem_of_singleton;
     intros Hin; destruct_or?; subst; simpl; auto).
Qed.

(** *** A queued URL within the depth bound ends up visited *)

Lemma pending_body u it rest c :
  pending u (set_queue (it :: rest) c) -> pending u (body it (set_queue rest c)).
Proof.
  unfold Inv.pending. simpl. intros [Hv|(it' & Hin & Hu & Hd')].
  - left. body_split it (set_queue rest c); set_solver.
  - apply elem_of_cons in Hin as [->|Hin].
    + left. body_split it (set_queue rest c); [|set_solver..].
      destruct Hv; [by subst|lia].
    + right. exists it'.
      body_split it (set_queue rest c); rewrite ?elem_of_app; auto.
Qed.

End Invariants.

(** ** The report of a call *)

Section Reports.

Variable url_hostname : string -> option string.
Variable url_resolve : string -> string -> option string.

Local Abbreviation crawlSite := (Crawler.crawlSite url_hostname url_resolve).
Local Abbreviation body := (Crawler.body url_hostname url_resolve).
Local Abbreviation page_links := (Crawler.page_links url_hostname url_resolve).
Local Abbreviation reachable := (Crawler.reachable url_hostname url_resolve).
Local Abbreviation link_path := (Crawler.link_path url_hostname url_resolve).
Local Abbreviation leftover := (Inv.leftover url_hostname).

(** The state a returning call ends in, with what each iteration keeps. *)
Lemma crawlSite_returned web g startUrl maxDepth rep g' log :
  crawlSite web g startUrl maxDepth = (Returned rep, g', log) ->
  exists baseDomain c,
    url_hostname startUrl = Some baseDomain
    /\ rep = report c /\ g' = glob c /\ log = fetched c /\ queue g' = []
    /\ forall P : Crawl -> Prop,
         (forall it rest c,
             P (set_queue (it :: rest) c) ->
             P (body web startUrl baseDomain maxDepth it (set_queue rest c))) ->
         P (start startUrl g) -> P c.
Proof.
  intros Hrun. destruct (url_hostname startUrl) as [b|] eqn:Hb.
  - destruct (crawlSite_run url_hostname url_resolve web g startUrl maxDepth b Hb)
      as (c & Hc & Hq & Hinv).
    rewrite Hc in Hrun. simplify_eq. exists b, c. eauto 10.
  - by rewrite crawlSite_thrown in Hrun.
Qed.

(** No record lies deeper than [maxDepth], whatever the module-level
    state the call starts in. *)
Lemma report_depth_le web g startUrl maxDepth rep g' log r :
  crawlSite web g startUrl maxDepth = (Returned rep, g', log) ->
  r ∈ rep -> depth r <= maxDepth.
Proof.
  intros (b & c & _ & -> & _ & _ & _ & Hinv)%crawlSite_returned.
  revert r. apply (Hinv (Inv.depth_bounded maxDepth)).
  - apply depth_bounded_body.
  - intros r Hr. by apply not_elem_of_nil in Hr.
Qed.

(** Entered with an empty queue, a call reports only URLs that a chain
    of links joins to the start URL, each at the length of such a chain. *)
Lemma report_linked web g startUrl maxDepth rep g' log baseDomain r :
  queue g = [] ->
  url_hostname startUrl = Some baseDomain ->
  crawlSite web g startUrl maxDepth = (Returned rep, g', log) ->
  r ∈ rep ->
  exists n : nat, depth r = Z.of_nat n /\ link_path web startUrl baseDomain startUrl n (url r).
Proof.
  intros Hq Hb (b & c & Hb' & -> & _ & _ & _ & Hinv)%crawlSite_returned. simplify_eq.
  revert r.
  apply (Hinv (Inv.all_linked url_hostname url_resolve web startUrl baseDomain)).
  - apply all_linked_body.
  - split; simpl; [|intros r Hr; by apply not_elem_of_nil in Hr].
    rewrite Hq. intros it ->%list_elem_of_singleton. exists O. split; [done|constructor].
Qed.

(** Entered with an empty queue, a call leaves out every URL that only
    chains of more than [maxDepth] links join to the start URL. *)
Lemma beyond_depth_absent web g startUrl maxDepth rep g' log baseDomain u :
  queue g = [] ->
  url_hostname startUrl = Some baseDomain ->
  crawlSite web g startUrl maxDepth = (Returned rep, g', log) ->
  (forall n : nat, link_path web startUrl baseDomain startUrl n u -> maxDepth < Z.of_nat n) ->
  u ∉ url <$> rep.
Proof.
  intros Hq Hb Hrun Hfar [r [-> Hr]]%list_elem_of_fmap.
  destruct (report_linked _ _ _ _ _ _ _ _ _ Hq Hb Hrun Hr) as (n & Hn & Hpath).
  pose proof (report_depth_le _ _ _ _ _ _ _ _ Hrun Hr).
  specialize (Hfar n Hpath). lia.
Qed.

(** The requests of a call go to pairwise different URLs. *)
Lemma fetch_at_most_once web g startUrl maxDepth rep g' log :
  crawlSite web g startUrl maxDepth = (Returned rep, g', log) -> NoDup log.
Proof.
  intros (b & c & _ & _ & _ & -> & _ & Hinv)%crawlSite_returned.
  apply (Hinv Inv.once); [apply once_body|].
  split; simpl; [constructor|]. intros u Hu. by apply not_elem_of_nil in Hu.
Qed.

(** What the body adds to the queue is on the start URL's host. *)
Lemma body_enqueues_same_host web startUrl baseDomain maxDepth it c it' :
  it' ∈ queue (glob (body web startUrl baseDomain maxDepth it c)) ->
  it' ∈ queue (glob c) \/ url_hostname (item_url it') = Some baseDomain.
Proof.
  destruct (body_cases url_hostname url_resolve web startUrl baseDomain maxDepth it c)
    as [[_ ->]
       |(_ & _ & [(code & d & links & _ & Hl & ->)
                 |[(code & d & _ & _ & ->)|(rs & _ & ->)]])]; simpl; auto.
  intros [?|(l & -> & Hin)%list_elem_of_fmap]%elem_of_app; [auto|].
  apply list_elem_of_filter in Hin as [_ Hin]. right. simpl.
  eapply page_links_same_host; eauto.
Qed.

(** A request that is rejected gives one record and no new queue item. *)
Lemma rejected_fetch_one_record web startUrl baseDomain maxDepth it c rs :
  item_url it ∉ visited (glob c) ->
  item_depth it <= maxDepth ->
  web (item_url it) = Rejected rs ->
  body web startUrl baseDomain maxDepth it c
  = push_report (failure_record (item_url it) rs (item_depth it)) (visit (item_url it) c).
Proof.
  intros Hv Hd Hw.
  destruct (body_cases url_hostname url_resolve web startUrl baseDomain maxDepth it c)
    as [[[?|?] _]
       |(_ & _ & [(code & d & links & ? & _)
                 |[(code & d & ? & _)|(rs' & ? & ->)]])];
    [done|lia|congruence..].
Qed.

(** C5: the depths of the records never go down along the report, so a
    record at a smaller depth comes before every record at a greater
    depth. *)
Theorem report_breadth_first web g startUrl maxDepth rep g' log :
  reachable g ->
  crawlSite web g startUrl maxDepth = (Returned rep, g', log) ->
  StronglySorted Z.le (depth <$> rep)
  /\ forall i j a b,
       rep !! i = Some a -> rep !! j = Some b -> depth a < depth b -> (i < j)%nat.
Proof.
  intros Hg (bd & c & _ & -> & _ & _ & _ & Hinv)%crawlSite_returned.
  assert (Inv.breadth_first c) as (k & _ & _ & _ & Hsorted).
  { apply Hinv; [apply breadth_first_body|].
    pose proof (reachable_leftover _ _ _ Hg) as Hleft. rewrite Forall_forall in Hleft.
    assert (forall it, it ∈ queue g ++ [mkItem startUrl 0] -> item_depth it = 0) as Hzero.
    { intros it [Hin| ->%list_elem_of_singleton]%elem_of_app; [|done].
      by destruct (Hleft it Hin). }
    exists 0. simpl. split_and!.
    - intros r Hr. by apply not_elem_of_nil in Hr.
    - intros it Hin. rewrite (Hzero it Hin). lia.
    - by apply (StronglySorted_const _ 0).
    - constructor. }
  split; [done|]. intros i j a b Hi Hj Hlt.
  destruct (decide (i < j)%nat) as [|Hge]; [done|exfalso].
  destruct (decide (i = j)) as [->|Hne]; [simplify_eq; lia|].
  assert (depth b <= depth a); [|lia].
  apply (StronglySorted_lookup_lt (depth <$> report c) j i); [done|..|lia];
    rewrite list_lookup_fmap; [by rewrite Hj|by rewrite Hi].
Qed.

(** C7: the record of a rejected request carries the status code of the
    response when there is one, and the marker when there is none. *)
Theorem rejected_fetch_status web g startUrl maxDepth rep g' log u rs :
  crawlSite web g startUrl maxDepth = (Returned rep, g', log) ->
  u ∈ log ->
  web u = Rejected rs ->
  (exists r, r ∈ rep /\ url r = u)
  /\ forall r, r ∈ rep -> url r = u ->
       signals r = None
       /\ match rs with
          | Some code => code <> 0 -> status r = Code code
          | None => status r = Erro
          end.
Proof.
  intros (bd & c & _ & -> & _ & -> & _ & Hinv)%crawlSite_returned Hu Hw.
  assert (Inv.faithful web c) as [Hans Hlog].
  { apply Hinv; [apply faithful_body|].
    split; simpl; [intros r Hr; by apply not_elem_of_nil in Hr|].
    intros x. split; [intros Hx; by apply not_elem_of_nil in Hx|].
    intros (r & Hr & _). by apply not_elem_of_nil in Hr. }
  split; [by apply Hlog|]. intros r Hr <-.
  specialize (Hans r Hr). unfold Inv.answered in Hans. rewrite Hw in Hans.
  rewrite Hans. simpl. split; [done|].
  destruct rs as [code|]; [|done]. intros Hne. simpl.
  by destruct (Z.eqb_spec code 0).
Qed.

(** C8: with a start URL that does not parse the call throws before the
    loop is entered: no request goes out, there is no report, and
    [visited] is as it was; the start URL stays on the queue. *)
Theorem unparseable_start_throws web g startUrl maxDepth :
  url_hostname startUrl = None ->
  (crawlSite web g startUrl maxDepth).1.1 = Thrown
  /\ (crawlSite web g startUrl maxDepth).2 = []
  /\ visited (crawlSite web g startUrl maxDepth).1.2 = visited g
  /\ queue (crawlSite web g startUrl maxDepth).1.2 = queue g ++ [mkItem startUrl 0].
Proof. intros H. by rewrite crawlSite_thrown. Qed.

(** C10: [visited] outlives the call.  A later call reports no URL that
    is in [visited] when it starts, which holds of every URL the earlier
    call requested; and after a call with [maxDepth >= 0] that returned,
    a call with the same start URL returns the empty report without a
    request. *)
Theorem second_call_skips_visited web1 web2 g u1 d1 u2 d2 o1 g1 log1 :
  crawlSite web1 g u1 d1 = (o1, g1, log1) ->
  (forall x, x ∈ log1 -> x ∈ visited g1)
  /\ (forall rep2 g2 log2 r,
        crawlSite web2 g1 u2 d2 = (Returned rep2, g2, log2) ->
        r ∈ rep2 -> url r ∉ visited g1)
  /\ (0 <= d1 -> (exists rep1, o1 = Returned rep1) ->
      crawlSite web2 g1 u1 d2 = (Returned [], g1, [])).
Proof.
  intros Hfirst. split_and!.
  - destruct o1 as [rep1| |].
    + apply crawlSite_returned in Hfirst
        as (bd & c & _ & _ & -> & -> & _ & Hinv).
      apply (Hinv Inv.once); [apply once_body|].
      split; simpl; [constructor|]. intros u Hu. by apply not_elem_of_nil in Hu.
    + destruct (url_hostname u1) as [bd|] eqn:Hb.
      * destruct (crawlSite_run url_hostname url_resolve web1 g u1 d1 bd Hb)
          as (c & Hc & _). congruence.
      * rewrite crawlSite_thrown in Hfirst by done. simplify_eq.
        intros x Hx. by apply not_elem_of_nil in Hx.
    + destruct (url_hostname u1) as [bd|] eqn:Hb.
      * destruct (crawlSite_run url_hostname url_resolve web1 g u1 d1 bd Hb)
          as (c & Hc & _). congruence.
      * rewrite crawlSite_thrown in Hfirst by done. simplify_eq.
  - intros rep2 g2 log2 r (bd & c & _ & -> & _ & _ & _ & Hinv)%crawlSite_returned.
    revert r. apply (Hinv (Inv.shuns (visited g1))); [apply shuns_body|].
    split; simpl; [done|]. intros r Hr. by apply not_elem_of_nil in Hr.
  - intros Hd1 [rep1 ->].
    apply crawlSite_returned in Hfirst
      as (bd & c & Hb & _ & -> & _ & Hq & Hinv).
    assert (u1 ∈ visited (glob c)) as Hseen.
    { assert (Inv.pending d1 u1 c) as [?|(it & Hin & _)]; [|done|].
      - apply Hinv; [apply pending_body|]. right. exists (mkItem u1 0). simpl.
        split; [|done]. apply elem_of_app. right. by left.
      - rewrite Hq in Hin. by apply not_elem_of_nil in Hin. }
    unfold Crawler.crawlSite. rewrite Hb. unfold start, push_seed. rewrite Hq. simpl.
    unfold Crawler.queue_cost. simpl.
    pose proof (cost_pos url_hostname url_resolve web2 u1 bd
                  (Crawler.levels_of d2 0) u1) as Hpos.
    unfold Crawler.item_cost. simpl.
    destruct (Crawler.cost _ _ _ _ _ _ _) as [|n]; [lia|]. simpl.
    unfold Crawler.body. simpl. rewrite bool_decide_eq_true_2 by done. simpl.
    destruct n; simpl; destruct (glob c) as [v q]; simpl in *; by subst q.
Qed.

End Reports.

(** ** Extraction does not look at links *)

Section Unlink.

Variable p : string -> bool.

Lemma text_of_unlink n : Cheerio.text_of (unlink_node p n) = Cheerio.text_of n.
Proof.
  induction n as [s|t attrs ks IH] using node_kids_ind; [done|].
  simpl. f_equal. induction IH as [|k ks Hk _ IHks]; [done|].
  simpl. by rewrite Hk, IHks.
Qed.

Lemma tag_of_unlink n : tag_of (unlink_node p n) = tag_of n.
Proof. by destruct n. Qed.

Lemma attr_of_unlink a n :
  tag_of n <> Some "a" -> Cheerio.attr_of a (unlink_node p n) = Cheerio.attr_of a n.
Proof.
  destruct n as [s|t attrs ks]; [done|]. simpl. intros Ht.
  destruct (String.eqb_spec t "a") as [->|_]; [done|done].
Qed.

Lemma select_node_tag s n e : e ∈ Cheerio.select_node s n -> tag_of e = Some (Cheerio.sel_tag s).
Proof.
  induction n as [x|t attrs ks IH] using node_kids_ind; simpl.
  { intros H. by apply not_elem_of_nil in H. }
  rewrite elem_of_app. intros [Hhere|Hkids].
  - unfold Cheerio.matches in Hhere.
    destruct (String.eqb_spec t (Cheerio.sel_tag s)) as [->|_]; simpl in Hhere.
    + destruct (Cheerio.sel_attrs s attrs); [|by apply not_elem_of_nil in Hhere].
      by apply list_elem_of_singleton in Hhere as ->.
    + by apply not_elem_of_nil in Hhere.
  - induction IH as [|k ks Hk _ IHks]; simpl in Hkids.
    { by apply not_elem_of_nil in Hkids. }
    apply elem_of_app in Hkids as [?|?]; auto.
Qed.

Lemma select_tag s d e : e ∈ Cheerio.select s d -> tag_of e = Some (Cheerio.sel_tag s).
Proof.
  unfold Cheerio.select. induction d as [|n d IH]; simpl.
  { intros H. by apply not_elem_of_nil in H. }
  rewrite elem_of_app. intros [?|?]; eauto using select_node_tag.
Qed.

(** A selection on another tag than [a] finds the same elements. *)
Lemma select_node_unlink s n :
  Cheerio.sel_tag s <> "a" ->
  Cheerio.select_node s (unlink_node p n) = unlink_node p <$> Cheerio.select_node s n.
Proof.
  intros Hs. induction n as [x|t attrs ks IH] using node_kids_ind; [done|].
  cbn [unlink_node Cheerio.select_node]. rewrite fmap_app. f_equal.
  - destruct (String.eqb t "a") eqn:Ha.
    + apply String.eqb_eq in Ha as ->. unfold Cheerio.matches.
      destruct (String.eqb_spec "a" (Cheerio.sel_tag s)) as [?|_]; [congruence|done].
    + destruct (Cheerio.matches s t attrs); [|done]. cbn. by rewrite Ha.
  - induction IH as [|k ks Hk _ IHks]; [done|].
    cbn. rewrite fmap_app. by f_equal.
Qed.

Lemma select_unlink s d :
  Cheerio.sel_tag s <> "a" ->
  Cheerio.select s (unlink p d) = unlink_node p <$> Cheerio.select s d.
Proof.
  intros Hs. unfold Cheerio.select, unlink. induction d as [|n d IH]; [done|].
  cbn. rewrite fmap_app, select_node_unlink by done. by f_equal.
Qed.

Lemma text_unlink els : Cheerio.text (unlink_node p <$> els) = Cheerio.text els.
Proof.
  unfold Cheerio.text. f_equal. induction els as [|e els IH]; [done|].
  cbn. by rewrite text_of_unlink, IH.
Qed.

Lemma attr_unlink a s d :
  Cheerio.sel_tag s <> "a" ->
  Cheerio.attr a (unlink_node p <$> Cheerio.select s d) = Cheerio.attr a (Cheerio.select s d).
Proof.
  intros Hs. destruct (Cheerio.select s d) as [|e els] eqn:Hsel; [done|].
  cbn. apply attr_of_unlink.
  rewrite (select_tag s d e) by (rewrite Hsel; left). congruence.
Qed.

(** The signals of a page stay the same when links are taken off it. *)
Lemma extract_unlink d : extract (unlink p d) = extract d.
Proof.
  unfold extract.
  rewrite !select_unlink by done.
  rewrite text_unlink, !attr_unlink by done.
  by rewrite !length_fmap.
Qed.

Lemma lookup_remove_attr a attrs : Cheerio.lookup_attr a (remove_attr a attrs) = None.
Proof.
  induction attrs as [|[k v] attrs IH]; [done|]. simpl.
  destruct (String.eqb k a) eqn:Hk; [done|]. simpl. by rewrite Hk.
Qed.

Lemma filter_filter_comm {A} (f g : A -> bool) (l : list A) :
  List.filter f (List.filter g l) = List.filter g (List.filter f l).
Proof.
  induction l as [|x l IH]; [done|]. simpl.
  destruct (f x) eqn:Hf, (g x) eqn:Hg; simpl; rewrite ?Hf, ?Hg, IH; done.
Qed.

(** The links of the unlinked document are the links [p] does not hold
    of. *)
Lemma anchors_node_unlink n :
  Cheerio.map_attr "href" (Cheerio.select_node (TagAttr "a" "href") (unlink_node p n))
  = List.filter (fun h => negb (p h))
      (Cheerio.map_attr "href" (Cheerio.select_node (TagAttr "a" "href") n)).
Proof.
  unfold Cheerio.map_attr.
  induction n as [x|t attrs ks IH] using node_kids_ind; [done|].
  cbn [unlink_node Cheerio.select_node]. rewrite !omap_app, List.filter_app. f_equal.
  - unfold Cheerio.matches. cbn [Cheerio.sel_tag Cheerio.sel_attrs].
    destruct (String.eqb t "a") eqn:Ht; cbn [andb]; [|done].
    destruct (Cheerio.lookup_attr "href" attrs) as [h|] eqn:Hh.
    + destruct (p h) eqn:Hp.
      * rewrite lookup_remove_attr.
        rewrite bool_decide_eq_false_2 by (by intros [? ?]).
        rewrite bool_decide_eq_true_2 by eauto.
        cbn. rewrite Hh. cbn. by rewrite Hp.
      * rewrite Hh, bool_decide_eq_true_2 by eauto. cbn. rewrite Hh. cbn. by rewrite Hp.
    + rewrite Hh. by rewrite bool_decide_eq_false_2 by (by intros [? ?]).
  - induction IH as [|k ks Hk _ IHks]; [done|].
    cbn. rewrite !omap_app, List.filter_app. by f_equal.
Qed.

Lemma hrefs_unlink d :
  hrefs (unlink p d) = List.filter (fun h => negb (p h)) (hrefs d).
Proof.
  unfold hrefs. rewrite filter_filter_comm. f_equal.
  unfold Cheerio.select, unlink, Cheerio.map_attr.
  induction d as [|n d IH]; [done|].
  cbn. rewrite !omap_app, List.filter_app. f_equal; [apply anchors_node_unlink|done].
Qed.

End Unlink.

(** C9 (as amended): the title of a record is the trimmed text of all
    [title] elements of the document taken together, in document order;
    it is the trimmed text of the [title] element when there is exactly
    one, and the empty string when there is none. *)
Theorem title_of_page (u : string) (code : Z) (d : Dom) (dep : Z) :
  let titles := Cheerio.select (Tag "title") d in
  (title <$> signals (success_record u code d dep)
   = Some (Js.trim (String.concat "" (Cheerio.text_of <$> titles))))
  /\ (titles = [] -> title <$> signals (success_record u code d dep) = Some "")
  /\ (forall e, titles = [e] ->
      title <$> signals (success_record u code d dep) = Some (Js.trim (Cheerio.text_of e))).
Proof.
  intros titles. split_and!; [done|..]; simpl; unfold Cheerio.text; fold titles.
  - by intros ->.
  - by intros e ->.
Qed.

(** ** A link on which [new URL] throws *)

Section Malformed.

Variable url_hostname : string -> option string.
Variable url_resolve : string -> string -> option string.
Variable web : string -> fetch_result.
Variable startUrl baseDomain : string.
Variable maxDepth : Z.

Local Abbreviation page_links := (Crawler.page_links url_hostname url_resolve startUrl baseDomain).
Local Abbreviation body := (Crawler.body url_hostname url_resolve web startUrl baseDomain maxDepth).
Local Abbreviation malformed := (Crawler.malformed url_hostname url_resolve startUrl baseDomain).

Lemma throwing_chain {A B} (f : A -> option B) (g : B -> option bool) (l : list A) :
  map_throwing f l ≫= filter_throwing g = None <-> exists x, x ∈ l /\ f x ≫= g = None.
Proof.
  induction l as [|x l IH]; simpl.
  { split; [done|]. intros (x & Hx & _). by apply not_elem_of_nil in Hx. }
  destruct (f x) as [y|] eqn:Hfx; simpl.
  2:{ split; [|done]. intros _. exists x. rewrite Hfx. split; [left|done]. }
  destruct (map_throwing f l) as [ys|] eqn:Hl; simpl in *.
  - destruct (g y) as [b|] eqn:Hgy; simpl.
    + destruct (filter_throwing g ys) as [zs|]; simpl.
      * split; [done|]. intros (z & [->|Hz]%elem_of_cons & Hnone).
        -- rewrite Hfx in Hnone. simpl in Hnone. congruence.
        -- destruct IH as [_ IH]. discriminate IH. eauto.
      * split; [|done]. intros _. destruct IH as [IH _].
        destruct (IH eq_refl) as (z & Hz & Hnone). exists z. split; [by right|done].
    + split; [|done]. intros _. exists x. rewrite Hfx. simpl. split; [left|done].
  - split; [|done]. intros _. destruct IH as [IH _].
    destruct (IH eq_refl) as (z & Hz & Hnone). exists z. split; [by right|done].
Qed.

(** The chain of lines 32-39 throws exactly when one of the kept
    [href]s is malformed. *)
Lemma page_links_throws d :
  page_links d = None <-> exists h, h ∈ hrefs d /\ malformed h = true.
Proof.
  unfold Crawler.page_links. rewrite throwing_chain. unfold Crawler.malformed.
  split; intros (h & Hin & Hbad); exists h; (split; [done|]).
  - apply andb_true_iff. split; [|by apply bool_decide_eq_true].
    unfold hrefs in Hin. apply list_elem_of_In, filter_In in Hin. tauto.
  - apply andb_true_iff in Hbad as [_ Hbad]. by apply bool_decide_eq_true in Hbad.
Qed.

(** Without its malformed links a page has links the chain of lines
    32-39 goes through. *)
Lemma page_links_unlink d : is_Some (page_links (unlink malformed d)).
Proof.
  destruct (page_links (unlink malformed d)) eqn:Hl; [eauto|exfalso].
  apply page_links_throws in Hl as (h & Hin & Hbad).
  rewrite hrefs_unlink in Hin. apply list_elem_of_In, filter_In in Hin as [_ Hok].
  by rewrite Hbad in Hok.
Qed.

(** C3 (as amended): when a kept [href] of a fetched page is malformed,
    the body still completes; the success record it appends is the one
    the page would get without its malformed links; and no link of the
    page, well-formed or not, is put on the queue, although the page
    without its malformed links has links that can be processed. *)
Theorem malformed_link_abandons_page it c code d h :
  item_url it ∉ visited (glob c) ->
  item_depth it <= maxDepth ->
  web (item_url it) = Response code d ->
  h ∈ hrefs d ->
  malformed h = true ->
  queue (glob (body it c)) = queue (glob c)
  /\ (exists extra,
        report (body it c)
        = report c ++ success_record (item_url it) code d (item_depth it) :: extra)
  /\ success_record (item_url it) code d (item_depth it)
     = success_record (item_url it) code (unlink malformed d) (item_depth it)
  /\ page_links d = None
  /\ is_Some (page_links (unlink malformed d)).
Proof.
  intros Hv Hd Hw Hin Hbad.
  assert (page_links d = None) as Hl by (apply page_links_throws; eauto).
  destruct (body_cases url_hostname url_resolve web startUrl baseDomain maxDepth it c)
    as [[[?|?] _]
       |(_ & _ & [(code' & d' & links & Hw' & Hl' & _)
                 |[(code' & d' & Hw' & _ & ->)|(rs & ? & _)]])];
    [done|lia|congruence| |congruence].
  rewrite Hw in Hw'. simplify_eq. simpl. split_and!.
  - done.
  - eexists. by rewrite <-app_assoc.
  - unfold success_record. by rewrite extract_unlink.
  - done.
  - apply page_links_unlink.
Qed.

End Malformed.

(** ** Runs on the two sites *)

Section Runs.

Local Abbreviation run_site := (Toy.crawlSite Toy.site Toy.fresh Toy.home 3).
Local Abbreviation run_rel := (Toy.crawlSite Toy.site_rel Toy.fresh Toy.home 3).
Local Abbreviation rel_home := (Toy.page "Home" ["page.html"; "/about"]).
Local Abbreviation empty_crawl := {| glob := Toy.fresh; report := []; fetched := [] |}.

Lemma run_site_eq : run_site = (Returned Toy.site_report, run_site.1.2, run_site.2).
Proof. vm_compute. reflexivity. Qed.

(** C1: on a home page with the relative link [page.html] the report
    names the home page twice, after a single request: the success record
    of line 30 is followed by the record of the [catch] block, which the
    [TypeError] of line 39 reaches. *)
Theorem report_repeats_url :
  run_rel.1.1
  = Returned [success_record Toy.home 200 rel_home 0; failure_record Toy.home None 0]
  /\ run_rel.2 = [Toy.home]
  /\ exists rep i j a b,
       run_rel.1.1 = Returned rep /\ i <> j
       /\ rep !! i = Some a /\ rep !! j = Some b /\ url a = url b.
Proof.
  split_and!; [by vm_compute..|].
  eexists _, 0%nat, 1%nat, _, _. split; [by vm_compute|]. by split_and!.
Qed.

(** C2: the one item taken off the queue, unvisited and within the depth
    bound, leaves two records in the report. *)
Theorem frontier_item_two_records :
  let it := mkItem Toy.home 0 in
  let c := Crawler.body Toy.hostname Toy.resolve Toy.site_rel Toy.home "a.test" 3
             it empty_crawl in
  (item_url it ∉ visited (glob empty_crawl))
  /\ item_depth it <= 3
  /\ length (report c) = 2%nat
  /\ report c
     = [success_record Toy.home 200 rel_home 0; failure_record Toy.home None 0].
Proof. split_and!; [apply not_elem_of_empty|simpl; lia|by vm_compute..]. Qed.

(** C3, as stated, fails: [/about] is a well-formed link of the home
    page of [site_rel], next to the malformed [page.html]; it is
    requested when [page.html] is taken off the page and never requested
    when it is there. *)
Lemma malformed_link_blocks_siblings :
  Toy.site_rel Toy.home = Response 200 rel_home
  /\ Toy.site_unlinked Toy.home = Response 200 (unlink Toy.bad_link rel_home)
  /\ hrefs rel_home = ["page.html"; "/about"]
  /\ hrefs (unlink Toy.bad_link rel_home) = ["/about"]
  /\ Toy.about ∈ (Toy.crawlSite Toy.site_unlinked Toy.fresh Toy.home 3).2
  /\ Toy.about ∉ run_rel.2.
Proof.
  split_and!; [by vm_compute..| |].
  - vm_compute. right. left.
  - vm_compute. intros [Heq|Hin]%elem_of_cons; [discriminate Heq|].
    by apply not_elem_of_nil in Hin.
Qed.

Lemma malformed_link_abandons_page_witness :
  queue (glob (Crawler.body Toy.hostname Toy.resolve Toy.site_rel Toy.home "a.test" 3
                 (mkItem Toy.home 0) empty_crawl)) = []
  /\ (exists extra,
        report (Crawler.body Toy.hostname Toy.resolve Toy.site_rel Toy.home "a.test" 3
                  (mkItem Toy.home 0) empty_crawl)
        = [] ++ success_record Toy.home 200 rel_home 0 :: extra)
  /\ success_record Toy.home 200 rel_home 0
     = success_record Toy.home 200 (unlink Toy.bad_link rel_home) 0
  /\ Crawler.page_links Toy.hostname Toy.resolve Toy.home "a.test" rel_home = None
  /\ is_Some (Crawler.page_links Toy.hostname Toy.resolve Toy.home "a.test"
                (unlink Toy.bad_link rel_home)).
Proof.
  apply (malformed_link_abandons_page Toy.hostname Toy.resolve Toy.site_rel Toy.home
           "a.test" 3 (mkItem Toy.home 0) empty_crawl 200 rel_home "page.html").
  - apply not_elem_of_empty.
  - simpl. lia.
  - reflexivity.
  - vm_compute. left.
  - reflexivity.
Defined.

(** C4: the start URL of a call that threw is still on the queue when the
    next call starts.  That call reports it, although no chain of links
    joins it to the start URL of the call; and it reports [/team] at depth
    1 with [maxDepth = 1], although every chain of links from the start
    URL to [/team] has more than one link. *)
Theorem leftover_start_url_reported :
  let first := Toy.crawlSite Toy.site_local Toy.fresh "bad" 1 in
  let second := Toy.crawlSite Toy.site_local first.1.2 Toy.home 1 in
  first.1.1 = Thrown
  /\ queue first.1.2 = [mkItem "bad" 0]
  /\ second.1.1
     = Returned [success_record "bad" 200 (Toy.page "Local" ["/team"]) 0;
                 success_record Toy.home 200
                   (Toy.page " Home " ["/about"; "http://b.test/x"; "/about"; "#top"]) 0;
                 failure_record Toy.team (Some 404) 1;
                 success_record Toy.about 200 (Toy.page "About" ["/team"; "/"]) 1]
  /\ (forall n,
        ~ Crawler.link_path Toy.hostname Toy.resolve Toy.site_local Toy.home "a.test"
            Toy.home n "bad")
  /\ Crawler.link_path Toy.hostname Toy.resolve Toy.site_local Toy.home "a.test"
       Toy.home 2 Toy.team
  /\ (forall n,
        Crawler.link_path Toy.hostname Toy.resolve Toy.site_local Toy.home "a.test"
          Toy.home n Toy.team ->
        1 < Z.of_nat n).
Proof.
  split_and!; [by vm_compute..| | |].
  - intros n Hpath. inversion Hpath as [|m v w _ Hlink]; subst.
    apply links_to_same_host in Hlink. vm_compute in Hlink. done.
  - apply Crawler.path_step with (v := Toy.about);
      [apply Crawler.path_step with (v := Toy.home); [apply Crawler.path_here|]|].
    + exists 200, (Toy.page " Home " ["/about"; "http://b.test/x"; "/about"; "#top"]),
        [Toy.about; Toy.about].
      split_and!; [by vm_compute..|left].
    + exists 200, (Toy.page "About" ["/team"; "/"]), [Toy.team; Toy.home].
      split_and!; [by vm_compute..|left].
  - intros [|[|n]] Hpath; [| |lia].
    + inversion Hpath.
    + inversion Hpath as [|m v w Hhere (code & d & links & Hw & Hl & Hin)]; subst.
      inversion Hhere; subst.
      vm_compute in Hw. injection Hw as <- <-.
      vm_compute in Hl. injection Hl as <-.
      apply elem_of_cons in Hin as [Heq|Hin]; [discriminate Heq|].
      apply elem_of_cons in Hin as [Heq|Hin]; [discriminate Heq|].
      by apply not_elem_of_nil in Hin.
Qed.

Lemma report_breadth_first_witness :
  StronglySorted Z.le (depth <$> Toy.site_report)
  /\ forall i j a b,
       Toy.site_report !! i = Some a -> Toy.site_report !! j = Some b ->
       depth a < depth b -> (i < j)%nat.
Proof.
  apply (report_breadth_first Toy.hostname Toy.resolve Toy.site Toy.fresh Toy.home 3
           Toy.site_report run_site.1.2 run_site.2).
  - apply Crawler.reachable_fresh.
  - apply run_site_eq.
Defined.

Lemma rejected_fetch_status_witness :
  (exists r, r ∈ Toy.site_report /\ url r = Toy.team)
  /\ forall r, r ∈ Toy.site_report -> url r = Toy.team ->
       signals r = None /\ (404 <> 0 -> status r = Code 404).
Proof.
  apply (rejected_fetch_status Toy.hostname Toy.resolve Toy.site Toy.fresh Toy.home 3
           Toy.site_report run_site.1.2 run_site.2 Toy.team (Some 404)).
  - apply run_site_eq.
  - vm_compute. right. right. left.
  - reflexivity.
Defined.

Lemma unparseable_start_throws_witness :
  (Toy.crawlSite Toy.site Toy.fresh "bad" 3).1.1 = Thrown
  /\ (Toy.crawlSite Toy.site Toy.fresh "bad" 3).2 = []
  /\ visited (Toy.crawlSite Toy.site Toy.fresh "bad" 3).1.2 = visited Toy.fresh
  /\ queue (Toy.crawlSite Toy.site Toy.fresh "bad" 3).1.2
     = queue Toy.fresh ++ [mkItem "bad" 0].
Proof.
  apply (unparseable_start_throws Toy.hostname Toy.resolve Toy.site Toy.fresh "bad" 3).
  reflexivity.
Defined.

Lemma second_call_skips_visited_witness :
  (forall x, x ∈ run_site.2 -> x ∈ visited run_site.1.2)
  /\ (forall rep2 g2 log2 r,
        Toy.crawlSite Toy.site_rel run_site.1.2 Toy.about 3 = (Returned rep2, g2, log2) ->
        r ∈ rep2 -> url r ∉ visited run_site.1.2)
  /\ (0 <= 3 -> (exists rep1, Returned Toy.site_report = Returned rep1) ->
      Toy.crawlSite Toy.site_rel run_site.1.2 Toy.home 3 = (Returned [], run_site.1.2, [])).
Proof.
  apply (second_call_skips_visited Toy.hostname Toy.resolve Toy.site Toy.site_rel
           Toy.fresh Toy.home 3 Toy.about 3 (Returned Toy.site_report)
           run_site.1.2 run_site.2).
  apply run_site_eq.
Defined.

(** C9, as stated, fails: with two [title] elements the title is the
    text of both, not that of the first. *)
Lemma title_joins_all_titles :
  Cheerio.select (Tag "title") Toy.two_titles
  = [Elem "title" [] [Text "A"]; Elem "title" [] [Text "B"]]
  /\ title (extract Toy.two_titles) = "AB"
  /\ title (extract Toy.two_titles) <> Js.trim (Cheerio.text_of (Elem "title" [] [Text "A"])).
Proof. split_and!; by vm_compute. Qed.

Lemma title_of_page_witness :
  title <$> signals (success_record Toy.home 200 (Toy.page " Home " ["/about"]) 0)
  = Some (Js.trim (Cheerio.text_of (Elem "title" [] [Text " Home "]))).
Proof.
  apply (title_of_page Toy.home 200 (Toy.page " Home " ["/about"]) 0).
  reflexivity.
Defined.

End Runs.

(** ** Requests, records and [visited] *)

Section Bookkeeping.

Variable url_hostname : string -> option string.
Variable url_resolve : string -> string -> option string.
Variable web : string -> fetch_result.
Variable startUrl baseDomain : string.
Variable maxDepth : Z.

Local Abbreviation body := (Crawler.body url_hostname url_resolve web startUrl baseDomain maxDepth).
Local Abbreviation page_links := (Crawler.page_links url_hostname url_resolve startUrl baseDomain).
Local Abbreviation records_for := (Crawler.records_for url_hostname url_resolve web startUrl baseDomain).
Local Abbreviation transcript := (Inv.transcript url_hostname url_resolve web startUrl baseDomain).

Local Ltac body_split it c :=
  let Hv := fresh "Hv" in
  let Hd := fresh "Hd" in
  let Hw := fresh "Hw" in
  let Hl := fresh "Hl" in
  let code := fresh "code" in
  let d := fresh "d" in
  let links := fresh "links" in
  let rs := fresh "rs" in
  destruct (body_cases url_hostname url_resolve web startUrl baseDomain maxDepth it c)
    as [[Hv ->]
       |(Hv & Hd & [(code & d & links & Hw & Hl & ->)
                   |[(code & d & Hw & Hl & ->)|(rs & Hw & ->)]])];
  simpl in *.

Lemma transcript_snoc (log : list string) (deps : list Z) u dep :
  length deps = length log ->
  concat (zip_with records_for (log ++ [u]) (deps ++ [dep]))
  = concat (zip_with records_for log deps) ++ records_for u dep.
Proof.
  intros Hlen. rewrite zip_with_app by done. rewrite concat_app. simpl.
  by rewrite app_nil_r.
Qed.

Lemma transcript_body it rest c :
  transcript (set_queue (it :: rest) c) -> transcript (body it (set_queue rest c)).
Proof.
  unfold Inv.transcript. simpl. intros (deps & Hlen & Hrep).
  body_split it (set_queue rest c); [by exists deps|..];
    (exists (deps ++ [item_depth it]); split; [rewrite !length_app; simpl; lia|]);
    rewrite transcript_snoc by done; rewrite Hrep;
    unfold Crawler.records_for; rewrite Hw, ?Hl; by rewrite <-?app_assoc.
Qed.

Lemma bookkept_body V it rest c :
  Inv.bookkept V (set_queue (it :: rest) c) -> Inv.bookkept V (body it (set_queue rest c)).
Proof.
  unfold Inv.bookkept. simpl. intros [Hvis Hnew].
  body_split it (set_queue rest c); [done|..];
    (split;
     [rewrite Hvis; apply set_eq; intros x;
      rewrite !elem_of_union, !elem_of_list_to_set, elem_of_app,
        elem_of_singleton, list_elem_of_singleton; tauto
     |intros u [?| ->%list_elem_of_singleton]%elem_of_app; [auto|];
      intros HV; apply Hv; rewrite Hvis; apply elem_of_union; by left]).
Qed.

Lemma idle_body V it rest c :
  maxDepth < 0 ->
  Inv.idle V (set_queue (it :: rest) c) -> Inv.idle V (body it (set_queue rest c)).
Proof.
  unfold Inv.idle. simpl. intros Hneg (Hrep & Hlog & Hvis & Hq).
  assert (0 <= item_depth it) by (apply Hq; left).
  body_split it (set_queue rest c); [|lia..].
  split_and!; [done..|]. intros it' Hin. apply Hq. by right.
Qed.

(** The records of one request bear its URL; there are one or two of
    them, and at most the first has a status code. *)
Lemma records_for_url u dep r : r ∈ records_for u dep -> url r = u.
Proof.
  unfold Crawler.records_for. destruct (web u) as [code d|rs].
  - destruct (page_links d); rewrite ?elem_of_cons;
      intros Hr; destruct_or?; subst; try done; by apply not_elem_of_nil in Hr.
  - by intros ->%list_elem_of_singleton.
Qed.

Lemma records_for_length u dep :
  (1 <= length (records_for u dep) <= 2)%nat.
Proof.
  unfold Crawler.records_for. destruct (web u) as [code d|rs]; [|simpl; lia].
  destruct (page_links d); simpl; lia.
Qed.

Lemma records_for_coded (f : PageRecord -> bool) u dep :
  (forall r, f r = true -> status r <> Erro) ->
  (length (List.filter f (records_for u dep)) <= 1)%nat.
Proof.
  intros Hf. unfold Crawler.records_for. destruct (web u) as [code d|rs].
  - destruct (page_links d); cbn [List.filter].
    + destruct (f _); simpl; lia.
    + destruct (f (failure_record u None dep)) eqn:Hfail.
      * by apply Hf in Hfail.
      * destruct (f (success_record u code d dep)); simpl; lia.
  - cbn [List.filter]. destruct (f _); simpl; lia.
Qed.

End Bookkeeping.

(** ** More on what a call leaves *)

Section Calls2.

Variable url_hostname : string -> option string.
Variable url_resolve : string -> string -> option string.

Local Abbreviation crawlSite := (Crawler.crawlSite url_hostname url_resolve).
Local Abbreviation loop := (Crawler.loop url_hostname url_resolve).
Local Abbreviation body := (Crawler.body url_hostname url_resolve).
Local Abbreviation page_links := (Crawler.page_links url_hostname url_resolve).
Local Abbreviation records_for := (Crawler.records_for url_hostname url_resolve).
Local Abbreviation reachable := (Crawler.reachable url_hostname url_resolve).
Local Abbreviation link_path := (Crawler.link_path url_hostname url_resolve).

Lemma loop_fuel_mono web startUrl baseDomain maxDepth fuel fuel' c c' :
  loop web startUrl baseDomain maxDepth fuel c = Some c' ->
  (fuel <= fuel')%nat ->
  loop web startUrl baseDomain maxDepth fuel' c = Some c'.
Proof.
  revert fuel' c. induction fuel as [|fuel IH]; intros fuel' c Hloop Hle.
  - simpl in Hloop. destruct (queue (glob c)) eqn:Hq; [|done].
    destruct fuel'; simpl; by rewrite Hq.
  - destruct fuel' as [|fuel']; [lia|]. simpl in *.
    destruct (queue (glob c)) as [|it rest]; [done|]. apply IH; [done|lia].
Qed.

Lemma crawl_bookkept web g startUrl maxDepth rep g' log :
  crawlSite web g startUrl maxDepth = (Returned rep, g', log) ->
  visited g' = visited g ∪ list_to_set log /\ (forall x, x ∈ log -> x ∉ visited g).
Proof.
  intros (b & c & _ & _ & -> & -> & _ & Hinv)%crawlSite_returned.
  apply (Hinv (Inv.bookkept (visited g))); [apply bookkept_body|].
  split; simpl; [|intros x Hx; by apply not_elem_of_nil in Hx].
  by rewrite (right_id_L ∅ (∪)).
Qed.

Lemma crawl_faithful web g startUrl maxDepth rep g' log x :
  crawlSite web g startUrl maxDepth = (Returned rep, g', log) ->
  x ∈ log <-> exists r, r ∈ rep /\ url r = x.
Proof.
  intros (b & c & _ & -> & _ & -> & _ & Hinv)%crawlSite_returned.
  assert (Inv.faithful web c) as [_ Hlog]; [|done].
  apply Hinv; [apply faithful_body|].
  split; simpl; [intros r Hr; by apply not_elem_of_nil in Hr|].
  intros y. split; [intros Hy; by apply not_elem_of_nil in Hy|].
  intros (r & Hr & _). by apply not_elem_of_nil in Hr.
Qed.

Lemma crawl_seed_visited web g startUrl maxDepth rep g' log :
  0 <= maxDepth ->
  crawlSite web g startUrl maxDepth = (Returned rep, g', log) ->
  startUrl ∈ visited g'.
Proof.
  intros Hd (b & c & _ & _ & -> & _ & Hq & Hinv)%crawlSite_returned.
  assert (Inv.pending maxDepth startUrl c) as [?|(it & Hin & _)]; [|done|].
  - apply Hinv; [apply pending_body|]. right. exists (mkItem startUrl 0). simpl.
    split; [|done]. apply elem_of_app. right. by left.
  - rewrite Hq in Hin. by apply not_elem_of_nil in Hin.
Qed.

Lemma crawl_transcript web g startUrl maxDepth baseDomain rep g' log :
  url_hostname startUrl = Some baseDomain ->
  crawlSite web g startUrl maxDepth = (Returned rep, g', log) ->
  exists deps : list Z,
    length deps = length log
    /\ rep = concat (zip_with (records_for web startUrl baseDomain) log deps).
Proof.
  intros Hb (b & c & Hb' & -> & _ & -> & _ & Hinv)%crawlSite_returned. simplify_eq.
  apply (Hinv (Inv.transcript url_hostname url_resolve web startUrl baseDomain));
    [apply transcript_body|].
  by exists [].
Qed.

(** X1: a call always settles.  It throws exactly when the start URL does
    not parse; otherwise the loop ends, the call returns with the queue
    drained, and every run of the loop that ends, whatever the number of
    iterations allowed, ends with the report returned. *)
Theorem call_settles web g startUrl maxDepth :
  match url_hostname startUrl with
  | None => (crawlSite web g startUrl maxDepth).1.1 = Thrown
  | Some baseDomain =>
      exists rep,
        (crawlSite web g startUrl maxDepth).1.1 = Returned rep
        /\ queue (crawlSite web g startUrl maxDepth).1.2 = []
        /\ forall fuel c,
             loop web startUrl baseDomain maxDepth fuel (start startUrl g) = Some c ->
             report c = rep
  end.
Proof.
  destruct (url_hostname startUrl) as [b|] eqn:Hb; [|by rewrite crawlSite_thrown].
  unfold Crawler.crawlSite. rewrite Hb.
  destruct (loop_terminates url_hostname url_resolve web startUrl b maxDepth
              _ (start startUrl g) (le_n _)) as [c Hc].
  rewrite Hc. simpl. exists (report c). split; [done|]. split.
  - by apply (loop_invariant _ _ _ _ _ _ (fun _ => True) (fun _ _ _ _ => I) _ _ _ I Hc).
  - intros fuel c' Hc'.
    set (k := Crawler.queue_cost url_hostname url_resolve web startUrl b maxDepth
                (queue (glob (start startUrl g)))) in *.
    pose proof (loop_fuel_mono _ _ _ _ _ (Nat.max fuel k) _ _ Hc' (Nat.le_max_l _ _)) as H1.
    pose proof (loop_fuel_mono _ _ _ _ _ (Nat.max fuel k) _ _ Hc (Nat.le_max_r _ _)) as H2.
    congruence.
Qed.

(** X2: when a call returns, [visited] is what it was before the call
    with the requested URLs added; no URL is requested twice, none that
    was visited before is requested, and the queue is empty. *)
Theorem visited_after_call web g startUrl maxDepth rep g' log :
  crawlSite web g startUrl maxDepth = (Returned rep, g', log) ->
  visited g' = visited g ∪ list_to_set log
  /\ NoDup log
  /\ (forall x, x ∈ log -> x ∉ visited g)
  /\ queue g' = [].
Proof.
  intros Hrun. destruct (crawl_bookkept _ _ _ _ _ _ _ Hrun) as [Hvis Hnew].
  split_and!; [done|by eapply fetch_at_most_once|done|].
  by apply crawlSite_returned in Hrun as (b & c & _ & _ & _ & _ & Hq & _).
Qed.

(** X3: the report is the requested URLs in the order of the requests,
    each with its records: the success record, which the record of the
    [catch] block follows when the link chain throws, or the record of the
    [catch] block alone.  So the report has between one and two records
    for each request. *)
Theorem report_transcript web g startUrl maxDepth baseDomain rep g' log :
  url_hostname startUrl = Some baseDomain ->
  crawlSite web g startUrl maxDepth = (Returned rep, g', log) ->
  (exists deps : list Z,
      length deps = length log
      /\ rep = concat (zip_with (records_for web startUrl baseDomain) log deps))
  /\ (length log <= length rep <= 2 * length log)%nat.
Proof.
  intros Hb Hrun. destruct (crawl_transcript _ _ _ _ _ _ _ _ Hb Hrun) as (deps & Hlen & ->).
  split; [eauto|]. clear Hrun. revert deps Hlen.
  induction log as [|x log IH]; intros [|dep deps] Hlen; simplify_eq/=; [lia|].
  rewrite length_app.
  pose proof (records_for_length url_hostname url_resolve web startUrl baseDomain x dep).
  specialize (IH deps ltac:(done)). lia.
Qed.

End Calls2.

Section Calls3.

Variable url_hostname : string -> option string.
Variable url_resolve : string -> string -> option string.

Local Abbreviation crawlSite := (Crawler.crawlSite url_hostname url_resolve).
Local Abbreviation body := (Crawler.body url_hostname url_resolve).
Local Abbreviation page_links := (Crawler.page_links url_hostname url_resolve).
Local Abbreviation absolute := (Crawler.absolute url_resolve).
Local Abbreviation records_for := (Crawler.records_for url_hostname url_resolve).
Local Abbreviation reachable := (Crawler.reachable url_hostname url_resolve).
Local Abbreviation link_path := (Crawler.link_path url_hostname url_resolve).

Lemma transcript_urls web startUrl baseDomain (log : list string) (deps : list Z) :
  length deps = length log ->
  (forall x code d,
      x ∈ log -> web x = Response code d -> is_Some (page_links startUrl baseDomain d)) ->
  url <$> concat (zip_with (records_for web startUrl baseDomain) log deps) = log.
Proof.
  revert deps. induction log as [|x log IH]; intros [|dep deps] Hlen Hok; simplify_eq/=;
    [done|].
  rewrite fmap_app, IH; [|done|intros y code d Hy; apply Hok; by right].
  unfold Crawler.records_for.
  destruct (web x) as [code d|rs] eqn:Hw; [|done].
  destruct (Hok x code d) as [links Hl]; [by left|done|]. by rewrite Hl.
Qed.

Lemma transcript_coded web startUrl baseDomain (f : PageRecord -> bool)
    (log : list string) (deps : list Z) :
  (forall r, f r = true -> status r <> Erro) ->
  url <$> List.filter f (concat (zip_with (records_for web startUrl baseDomain) log deps))
  `sublist_of` log.
Proof.
  intros Hf. revert deps. induction log as [|x log IH]; intros [|dep deps]; simpl;
    try apply sublist_nil_l.
  rewrite List.filter_app, fmap_app. apply (sublist_app _ [x]); [|apply IH].
  pose proof (records_for_coded url_hostname url_resolve web startUrl baseDomain f x dep Hf)
    as Hlen.
  destruct (List.filter f _) as [|r [|r' l]] eqn:Hfilter; simpl in Hlen; [|clear Hlen|lia].
  - apply sublist_nil_l.
  - assert (r ∈ records_for web startUrl baseDomain x dep) as Hr.
    { apply list_elem_of_In. eapply proj1, filter_In. rewrite Hfilter. by left. }
    apply records_for_url in Hr. simpl. by rewrite Hr.
Qed.

(** X4: when the link chain throws on none of the pages a call fetches,
    the URLs of the report are the requested URLs, in the order of the
    requests, and none appears twice. *)
Theorem report_urls_distinct web g startUrl maxDepth baseDomain rep g' log :
  url_hostname startUrl = Some baseDomain ->
  crawlSite web g startUrl maxDepth = (Returned rep, g', log) ->
  (forall x code d,
      x ∈ log -> web x = Response code d -> is_Some (page_links startUrl baseDomain d)) ->
  url <$> rep = log /\ NoDup (url <$> rep).
Proof.
  intros Hb Hrun Hok.
  destruct (crawl_transcript _ _ _ _ _ _ _ _ _ _ Hb Hrun) as (deps & Hlen & ->).
  rewrite transcript_urls by done. split; [done|]. by eapply fetch_at_most_once.
Qed.

Lemma coded_urls_distinct web g startUrl maxDepth rep g' log (f : PageRecord -> bool) :
  crawlSite web g startUrl maxDepth = (Returned rep, g', log) ->
  (forall r, f r = true -> status r <> Erro) ->
  NoDup (url <$> List.filter f rep).
Proof.
  intros Hrun Hf.
  pose proof (fetch_at_most_once _ _ _ _ _ _ _ _ _ Hrun) as Hnd.
  pose proof Hrun as (b & c0 & Hb & _)%crawlSite_returned.
  destruct (crawl_transcript _ _ _ _ _ _ _ _ _ _ Hb Hrun) as (deps & Hlen & ->).
  eapply sublist_NoDup; [done|by apply transcript_coded].
Qed.

(** X5: whatever the pages hold, no URL has two records with a status
    code: the record that the [catch] block adds after a success record
    always carries the marker. *)
Theorem one_coded_record_per_url web g startUrl maxDepth rep g' log :
  crawlSite web g startUrl maxDepth = (Returned rep, g', log) ->
  NoDup (url <$> List.filter coded rep)
  /\ forall c, NoDup (url <$> List.filter (status_is c) rep).
Proof.
  intros Hrun. split; [|intros c]; eapply coded_urls_distinct; try done.
  - intros r. unfold coded. by destruct (status r).
  - intros r. unfold status_is. by destruct (status r).
Qed.

(** X6: with [maxDepth = 0] a call entered with an empty queue requests
    the start URL and nothing else, or nothing at all when the start URL
    was visited before. *)
Theorem depth_zero_requests_seed web g startUrl baseDomain rep g' log :
  queue g = [] ->
  url_hostname startUrl = Some baseDomain ->
  crawlSite web g startUrl 0 = (Returned rep, g', log) ->
  log = if decide (startUrl ∈ visited g) then [] else [startUrl].
Proof.
  intros Hq Hb Hrun.
  assert (forall x, x ∈ log -> x = startUrl) as Hseed.
  { intros x (r & Hr & <-)%(crawl_faithful _ _ _ _ _ _ _ _ _ _ Hrun).
    destruct (report_linked _ _ _ _ _ _ _ _ _ _ _ Hq Hb Hrun Hr) as (n & Hn & Hpath).
    pose proof (report_depth_le _ _ _ _ _ _ _ _ _ _ Hrun Hr).
    destruct n as [|n]; [|lia]. by inversion Hpath. }
  pose proof (fetch_at_most_once _ _ _ _ _ _ _ _ _ Hrun) as Hnd.
  destruct (crawl_bookkept _ _ _ _ _ _ _ _ _ Hrun) as [Hvis Hnew].
  pose proof (crawl_seed_visited _ _ _ _ _ _ _ _ _ (Z.le_refl 0) Hrun) as Hin.
  destruct log as [|x [|y log]].
  - case_decide; [done|]. rewrite Hvis in Hin.
    apply elem_of_union in Hin as [?|Hin]; [done|].
    apply elem_of_list_to_set in Hin. by apply not_elem_of_nil in Hin.
  - rewrite (Hseed x) by left. case_decide as Hv; [|done].
    destruct (Hnew x); [left|]. by rewrite (Hseed x) by left.
  - exfalso. apply NoDup_cons in Hnd as [Hx _]. apply Hx.
    rewrite (Hseed x), (Hseed y); [left|right; left|left].
Qed.

(** X7: with a negative [maxDepth] a call whose start URL parses returns
    the empty report without a request, and leaves [visited] as it was. *)
Theorem negative_depth_idle web g startUrl maxDepth baseDomain :
  reachable g ->
  maxDepth < 0 ->
  url_hostname startUrl = Some baseDomain ->
  crawlSite web g startUrl maxDepth
  = (Returned [], {| visited := visited g; queue := [] |}, []).
Proof.
  intros Hg Hneg Hb.
  destruct (crawlSite_run url_hostname url_resolve web g startUrl maxDepth baseDomain Hb)
    as (c & -> & Hq & Hinv).
  assert (Inv.idle (visited g) c) as (-> & -> & Hvis & _).
  { apply Hinv; [intros; by apply idle_body|].
    pose proof (reachable_leftover _ _ _ Hg) as Hleft. rewrite Forall_forall in Hleft.
    split_and!; [done..|]. simpl.
    intros it [Hin| ->%list_elem_of_singleton]%elem_of_app; [|done].
    destruct (Hleft it Hin) as [-> _]. done. }
  destruct (glob c) as [v q]. simpl in *. by subst.
Qed.

(** X8: no request of a call goes to another host: every requested URL
    that has a host name has that of the start URL. *)
Theorem requests_same_host web g startUrl maxDepth baseDomain rep g' log x h :
  reachable g ->
  url_hostname startUrl = Some baseDomain ->
  crawlSite web g startUrl maxDepth = (Returned rep, g', log) ->
  x ∈ log ->
  url_hostname x = Some h ->
  h = baseDomain.
Proof.
  intros Hg Hb Hrun (r & Hr & <-)%(crawl_faithful _ _ _ _ _ _ _ _ _ _ Hrun).
  apply crawlSite_returned in Hrun as (bd & c & Hb' & -> & _ & _ & _ & Hinv). simplify_eq.
  assert (Inv.scoped url_hostname baseDomain c) as [_ Hrep]; [|by apply Hrep].
  apply Hinv; [apply scoped_body|].
  pose proof (reachable_leftover _ _ _ Hg) as Hleft. rewrite Forall_forall in Hleft.
  split; simpl; [|intros r' Hr'; by apply not_elem_of_nil in Hr'].
  intros it [Hin| ->%list_elem_of_singleton]%elem_of_app h' Hh; simpl in *.
  - destruct (Hleft it Hin) as [_ Hnone]. congruence.
  - congruence.
Qed.

End Calls3.

(** ** The title and the links of a page *)

Section Pages.

Variable url_hostname : string -> option string.
Variable url_resolve : string -> string -> option string.
Variable startUrl baseDomain : string.

Local Abbreviation page_links := (Crawler.page_links url_hostname url_resolve startUrl baseDomain).
Local Abbreviation absolute := (Crawler.absolute url_resolve startUrl).
Local Abbreviation same_host := (Crawler.same_host url_hostname baseDomain).

Lemma trimStart_head s :
  Js.trimStart s = EmptyString
  \/ exists c t, Js.trimStart s = String c t /\ Js.is_space c = false.
Proof.
  induction s as [|c s IH]; [by left|]. simpl.
  destruct (Js.is_space c) eqn:Hc; [done|]. right. eauto.
Qed.

Lemma trimEnd_head c s :
  Js.is_space c = false -> exists t, Js.trimEnd (String c s) = String c t.
Proof. intros Hc. simpl. destruct (Js.trimEnd s); rewrite ?Hc; eauto. Qed.

Lemma trimEnd_trimEnd s : Js.trimEnd (Js.trimEnd s) = Js.trimEnd s.
Proof.
  induction s as [|c s IH]; [done|]. simpl.
  destruct (Js.trimEnd s) as [|a t] eqn:Hs.
  - destruct (Js.is_space c) eqn:Hc; [done|]. simpl. by rewrite Hc.
  - simpl in *. rewrite IH. done.
Qed.

(** X9: the title of a record neither begins nor ends with white space:
    trimming it at either end changes nothing. *)
Theorem title_is_trimmed (d : Dom) :
  Js.trimStart (title (extract d)) = title (extract d)
  /\ Js.trimEnd (title (extract d)) = title (extract d).
Proof.
  simpl. unfold Js.trim. split; [|apply trimEnd_trimEnd].
  destruct (trimStart_head (Cheerio.text (Cheerio.select (Tag "title") d)))
    as [->|(c & t & -> & Hc)]; [done|].
  destruct (trimEnd_head c t Hc) as [t' ->]. simpl. by rewrite Hc.
Qed.

Lemma map_throwing_elem {A B} (f : A -> option B) l ys y :
  map_throwing f l = Some ys -> y ∈ ys <-> exists x, x ∈ l /\ f x = Some y.
Proof.
  revert ys. induction l as [|x l IH]; intros ys Hm; simpl in Hm.
  - simplify_eq. split; [intros H; by apply not_elem_of_nil in H|].
    intros (x & Hx & _). by apply not_elem_of_nil in Hx.
  - destruct (f x) as [z|] eqn:Hfx; simpl in Hm; [|done].
    destruct (map_throwing f l) as [zs|]; simpl in Hm; [|done]. simplify_eq.
    rewrite elem_of_cons, (IH zs eq_refl). split.
    + intros [->|(x' & Hx' & Hy)]; [exists x; split; [left|done]|].
      exists x'. split; [by right|done].
    + intros (x' & [->|Hx']%elem_of_cons & Hy); [left; congruence|right; eauto].
Qed.

Lemma filter_throwing_keeps {A} (p : A -> option bool) l l' x :
  filter_throwing p l = Some l' -> x ∈ l -> p x = Some true -> x ∈ l'.
Proof.
  revert l'. induction l as [|y l IH]; intros l' Hf Hx Hp; simpl in Hf.
  { by apply not_elem_of_nil in Hx. }
  destruct (p y) as [b|] eqn:Hy; simpl in Hf; [|done].
  destruct (filter_throwing p l) as [ys|]; simpl in Hf; [|done]. simplify_eq.
  apply elem_of_cons in Hx as [->|Hx].
  - rewrite Hp in Hy. simplify_eq. left.
  - destruct b; [right|]; by apply IH.
Qed.

(** X10: when the link chain of a page goes through, its links are the
    [href]s of the page that are not empty and do not begin with [#],
    [mailto:] or [tel:], each resolved against the start URL when it
    begins with [/] and taken as it stands otherwise, and kept when its
    host name is that of the start URL.  The URL of the page itself plays
    no part. *)
Theorem links_of_page (d : Dom) (links : list string) (l : string) :
  page_links d = Some links ->
  l ∈ links <->
  exists h,
    h ∈ Cheerio.map_attr "href" (Cheerio.select (TagAttr "a" "href") d)
    /\ h <> EmptyString
    /\ Js.startsWith h "#" = false
    /\ Js.startsWith h "mailto:" = false
    /\ Js.startsWith h "tel:" = false
    /\ (if Js.startsWith h "/" then url_resolve h startUrl = Some l else l = h)
    /\ url_hostname l = Some baseDomain.
Proof.
  unfold Crawler.page_links. intros Hp.
  destruct (map_throwing absolute (hrefs d)) as [resolved|] eqn:Hm; simpl in Hp; [|done].
  assert (forall h, h ∈ hrefs d <->
            h ∈ Cheerio.map_attr "href" (Cheerio.select (TagAttr "a" "href") d)
            /\ h <> EmptyString /\ Js.startsWith h "#" = false
            /\ Js.startsWith h "mailto:" = false /\ Js.startsWith h "tel:" = false)
    as Hhrefs.
  { intros h. unfold hrefs. rewrite list_elem_of_In, filter_In, <-list_elem_of_In.
    unfold navigable. rewrite !andb_true_iff, !negb_true_iff.
    assert (Js.truthy h = true <-> h <> EmptyString) as -> by (destruct h; done). tauto. }
  assert (forall h, absolute h = Some l <->
            if Js.startsWith h "/" then url_resolve h startUrl = Some l else l = h)
    as Habs.
  { intros h. unfold Crawler.absolute. destruct (Js.startsWith h "/"); [done|].
    split; congruence. }
  assert (same_host l = Some true <-> url_hostname l = Some baseDomain) as Hhost.
  { unfold Crawler.same_host. destruct (url_hostname l) as [h|]; simpl; [|done].
    split.
    - intros [= ->%bool_decide_eq_true]. done.
    - intros [= ->]. by rewrite bool_decide_eq_true_2. }
  split.
  - intros Hl. destruct (filter_throwing_elem _ _ _ _ Hp Hl) as [Hres Hsame].
    apply (map_throwing_elem _ _ _ _ Hm) in Hres as (h & Hh & Hab).
    exists h. apply Hhrefs in Hh. apply Habs in Hab. apply Hhost in Hsame. tauto.
  - intros (h & H1 & H2 & H3 & H4 & H5 & Hab & Hsame).
    eapply filter_throwing_keeps; [done| |by apply Hhost].
    apply (map_throwing_elem _ _ _ _ Hm). exists h. split; [|by apply Habs].
    apply Hhrefs. tauto.
Qed.

End Pages.

(** ** The findings of an audit *)

Section Findings.

Variable url_resolve : string -> string -> option string.
Variable url_pathname : string -> option string.

Local Abbreviation robots_check := (Auditoria.robots_check url_resolve url_pathname).
Local Abbreviation auditoriaAvancada := (Auditoria.auditoriaAvancada url_resolve url_pathname).
Local Abbreviation auditoriaComTimeout := (Auditoria.auditoriaComTimeout url_resolve url_pathname).

Local Ltac solve_sublist :=
  repeat first [apply sublist_nil_l | apply sublist_skip | apply sublist_cons].

Local Abbreviation well_formed u :=
  (fun e : Auditoria.erro =>
     Auditoria.url e = u
     /\ (is_Some (Auditoria.quantidade e) <-> Auditoria.tipo e = Auditoria.ImagensSemAlt)).

Lemma well_formed_plain u t :
  t <> Auditoria.ImagensSemAlt -> well_formed u (Auditoria.mkErro t None u).
Proof.
  intros Ht. split; [done|]. simpl. split; [by intros [? ?]|done].
Qed.

Lemma well_formed_images u n :
  well_formed u (Auditoria.mkErro Auditoria.ImagensSemAlt (Some n) u).
Proof. split; [done|]. simpl. split; [done|eauto]. Qed.

Local Ltac solve_well_formed :=
  repeat first
    [apply Forall_nil_2
    |apply Forall_cons_2;
     [first [by apply well_formed_plain|apply well_formed_images]|]].

Lemma robots_check_findings w u :
  Forall (well_formed u) (robots_check w u)
  /\ Auditoria.tipo <$> robots_check w u
     `sublist_of` [Auditoria.BloqueadoPorRobots; Auditoria.ErroAoAcessarRobots]
  /\ (length (robots_check w u) <= 1)%nat.
Proof.
  unfold Auditoria.robots_check.
  destruct (_ ≫= _) as [[|]|]; simpl;
    (split_and!; [solve_well_formed|solve_sublist|lia]).
Qed.

Lemma status_check_findings w u :
  Forall (well_formed u) (Auditoria.status_check w u)
  /\ Auditoria.tipo <$> Auditoria.status_check w u
     `sublist_of` [Auditoria.Erro404; Auditoria.LoopDeRedirecionamento;
                   Auditoria.ErroDeConexao]
  /\ (length (Auditoria.status_check w u) <= 1)%nat.
Proof.
  unfold Auditoria.status_check.
  destruct (Auditoria.manual_fetch w u) as [[st location]|]; simpl;
    [destruct (st =? 404); [|destruct ((300 <=? st) && (st <? 400)); [case_bool_decide|]]|];
    simpl;
    (split_and!; [solve_well_formed|solve_sublist|lia]).
Qed.

Lemma meta_checks_findings u m :
  Forall (well_formed u) (Auditoria.meta_checks u m)
  /\ Auditoria.tipo <$> Auditoria.meta_checks u m
     `sublist_of` [Auditoria.TituloAusente; Auditoria.MetaDescriptionAusente;
                   Auditoria.ExcessoDeH1; Auditoria.SemH2; Auditoria.ImagensSemAlt]
  /\ (length (Auditoria.meta_checks u m) <= 5)%nat.
Proof.
  unfold Auditoria.meta_checks.
  destruct (Js.truthy (Auditoria.title m)), (Js.truthy (Auditoria.description m)),
    (1 <? Auditoria.h1 m)%nat, (Auditoria.h2 m =? 0)%nat, (0 <? Auditoria.imgsSemAlt m)%nat;
    simpl;
    (split_and!; [solve_well_formed|solve_sublist|lia]).
Qed.

Lemma findings_shape w u erros :
  auditoriaAvancada w u = Some erros ->
  Forall (well_formed u) erros
  /\ Auditoria.tipo <$> erros
     `sublist_of` [Auditoria.BloqueadoPorRobots; Auditoria.ErroAoAcessarRobots;
                   Auditoria.Erro404; Auditoria.LoopDeRedirecionamento;
                   Auditoria.ErroDeConexao; Auditoria.TituloAusente;
                   Auditoria.MetaDescriptionAusente; Auditoria.ExcessoDeH1;
                   Auditoria.SemH2; Auditoria.ImagensSemAlt]
  /\ (length erros <= 7)%nat.
Proof.
  unfold Auditoria.auditoriaAvancada. intros Haudit.
  destruct (Auditoria.inspect w u) as [m|]; simpl in Haudit; [|done]. simplify_eq.
  destruct (robots_check_findings w u) as (Hr1 & Hr2 & Hr3).
  destruct (status_check_findings w u) as (Hs1 & Hs2 & Hs3).
  destruct (meta_checks_findings u m) as (Hm1 & Hm2 & Hm3).
  split_and!.
  - apply Forall_app_2; [apply Forall_app_2|]; done.
  - rewrite !fmap_app.
    apply (sublist_app _ ([Auditoria.BloqueadoPorRobots; Auditoria.ErroAoAcessarRobots]
                          ++ [Auditoria.Erro404; Auditoria.LoopDeRedirecionamento;
                              Auditoria.ErroDeConexao])); [|done].
    by apply sublist_app.
  - rewrite !length_app. lia.
Qed.

(** X11: the findings of an audit all bear the audited URL; their kinds
    come in the order of the source and none comes twice; there are at
    most seven; and [quantidade] is there for the images only. *)
Theorem audit_findings w u erros :
  auditoriaAvancada w u = Some erros ->
  (forall e, e ∈ erros ->
      Auditoria.url e = u
      /\ (is_Some (Auditoria.quantidade e) <-> Auditoria.tipo e = Auditoria.ImagensSemAlt))
  /\ Auditoria.tipo <$> erros
     `sublist_of` [Auditoria.BloqueadoPorRobots; Auditoria.ErroAoAcessarRobots;
                   Auditoria.Erro404; Auditoria.LoopDeRedirecionamento;
                   Auditoria.ErroDeConexao; Auditoria.TituloAusente;
                   Auditoria.MetaDescriptionAusente; Auditoria.ExcessoDeH1;
                   Auditoria.SemH2; Auditoria.ImagensSemAlt]
  /\ NoDup (Auditoria.tipo <$> erros)
  /\ (length erros <= 7)%nat.
Proof.
  intros (Hwf & Hsub & Hlen)%findings_shape. split_and!; [|done| |done].
  - by apply (Forall_forall (well_formed u)).
  - eapply sublist_NoDup; [|done]. apply (bool_decide_unpack _). by vm_compute.
Qed.

(** A finding on the status comes from the check of the status. *)
Lemma status_tipos_only w u m t :
  t ∈ [Auditoria.Erro404; Auditoria.LoopDeRedirecionamento; Auditoria.ErroDeConexao] ->
  t ∈ Auditoria.tipo <$> (robots_check w u ++ Auditoria.status_check w u)
                         ++ Auditoria.meta_checks u m
  <-> t ∈ Auditoria.tipo <$> Auditoria.status_check w u.
Proof.
  destruct (robots_check_findings w u) as (_ & Hr & _).
  destruct (meta_checks_findings u m) as (_ & Hm & _).
  intros Ht. rewrite !fmap_app, !elem_of_app. split; [|tauto].
  intros [[Hin|?]|Hin]; [|done|]; exfalso;
    eapply elem_of_sublist in Hin; [|done| |done];
    apply elem_of_cons in Ht as [->|[->|[->|Ht]%elem_of_cons]%elem_of_cons];
    try (by apply not_elem_of_nil in Ht);
    apply (bool_decide_pack _) in Hin; by vm_compute in Hin.
Qed.

Lemma finding_404 w u erros :
  auditoriaAvancada w u = Some erros ->
  Auditoria.Erro404 ∈ Auditoria.tipo <$> erros ->
  exists location, Auditoria.manual_fetch w u = Some (404, location).
Proof.
  unfold Auditoria.auditoriaAvancada. intros Haudit.
  destruct (Auditoria.inspect w u) as [m|]; simpl in Haudit; [|done]. simplify_eq.
  rewrite status_tipos_only by left. unfold Auditoria.status_check.
  destruct (Auditoria.manual_fetch w u) as [[st location]|]; simpl.
  - destruct (Z.eqb_spec st 404) as [->|Hne]; [eauto|].
    destruct ((300 <=? st) && (st <? 400)); [case_bool_decide|]; simpl;
      rewrite ?list_elem_of_singleton, ?elem_of_nil; done.
  - by rewrite list_elem_of_singleton.
Qed.

(** X12: the three findings on the status exclude one another.  A 404 is
    found exactly when the request answers 404; a redirect loop exactly
    when it answers a 3xx whose [location] is the audited URL itself,
    character for character; a connection error exactly when it fails. *)
Theorem audit_status_findings w u erros :
  auditoriaAvancada w u = Some erros ->
  (Auditoria.Erro404 ∈ Auditoria.tipo <$> erros
   <-> exists location, Auditoria.manual_fetch w u = Some (404, location))
  /\ (Auditoria.LoopDeRedirecionamento ∈ Auditoria.tipo <$> erros
      <-> exists st, Auditoria.manual_fetch w u = Some (st, Some u) /\ 300 <= st < 400)
  /\ (Auditoria.ErroDeConexao ∈ Auditoria.tipo <$> erros
      <-> Auditoria.manual_fetch w u = None).
Proof.
  unfold Auditoria.auditoriaAvancada. intros Haudit.
  destruct (Auditoria.inspect w u) as [m|]; simpl in Haudit; [|done]. simplify_eq.
  rewrite !status_tipos_only by (rewrite !elem_of_cons; tauto).
  unfold Auditoria.status_check.
  destruct (Auditoria.manual_fetch w u) as [[st location]|]; simpl.
  - destruct (Z.eqb_spec st 404) as [->|Hne]; simpl.
    + rewrite !list_elem_of_singleton. split_and!; [|split; [done|]|done].
      * split; [eauto|done].
      * intros (st & [= <- _] & ?). lia.
    + destruct ((300 <=? st) && (st <? 400)) eqn:Hredirect.
      * apply andb_true_iff in Hredirect as [?%Z.leb_le ?%Z.ltb_lt].
        case_bool_decide as Hloc; simpl.
        -- subst location. rewrite !list_elem_of_singleton. split_and!; [|split; [eauto|done]|done].
           split; [done|]. intros (loc & [= ? _]). done.
        -- rewrite !elem_of_nil. split_and!; [|split; [done|]|done].
           ++ split; [done|]. intros (loc & [= ? _]). done.
           ++ intros (st' & [= _ ->] & _). done.
      * rewrite !elem_of_nil. split_and!; [|split; [done|]|done].
        -- split; [done|]. intros (loc & [= ? _]). done.
        -- intros (st' & [= <- _] & ? & ?).
           apply andb_false_iff in Hredirect as [?%Z.leb_gt|?%Z.ltb_ge]; lia.
  - rewrite !list_elem_of_singleton. split_and!; [|split; [done|]|done].
    + split; [done|]. by intros (loc & ?).
    + by intros (st & ? & _).
Qed.

End Findings.

(** ** The route *)

Section RouteFacts.

Variable url_hostname : string -> option string.
Variable url_resolve : string -> string -> option string.
Variable url_pathname : string -> option string.
Variables Lhr Scores : Type.

Local Abbreviation crawlSite := (Crawler.crawlSite url_hostname url_resolve).
Local Abbreviation auditoriaAvancada := (Auditoria.auditoriaAvancada url_resolve url_pathname).
Local Abbreviation auditoriaComTimeout := (Auditoria.auditoriaComTimeout url_resolve url_pathname).
Local Abbreviation audit_pages := (Route.audit_pages url_resolve url_pathname).
Local Abbreviation auditar := (Route.auditar url_hostname url_resolve url_pathname Lhr Scores).
Local Abbreviation Services := (Route.Services Lhr Scores).
Local Abbreviation relatorio := (Route.relatorio Scores).

Lemma List_filter_sublist {A} (f : A -> bool) (l : list A) : List.filter f l `sublist_of` l.
Proof.
  induction l as [|x l IH]; [done|]. simpl.
  destruct (f x); [by apply sublist_skip|by apply sublist_cons].
Qed.

Lemma sublist_fmap {A B} (f : A -> B) (l k : list A) :
  l `sublist_of` k -> f <$> l `sublist_of` f <$> k.
Proof. induction 1; csimpl; [done|by apply sublist_skip|by apply sublist_cons]. Qed.

Lemma NoDup_fmap_eq {A B} (f : A -> B) (l : list A) x y :
  NoDup (f <$> l) -> x ∈ l -> y ∈ l -> f x = f y -> x = y.
Proof.
  induction l as [|z l IH]; csimpl; intros Hnd Hx Hy Hf.
  { by apply not_elem_of_nil in Hx. }
  apply NoDup_cons in Hnd as [Hz Hnd].
  apply elem_of_cons in Hx as [->|Hx]; apply elem_of_cons in Hy as [->|Hy]; auto.
  - destruct Hz. rewrite Hf. by apply list_elem_of_fmap_2.
  - destruct Hz. rewrite <-Hf. by apply list_elem_of_fmap_2.
Qed.

Lemma paginasAuditadas_elem rep p :
  p ∈ Route.paginasAuditadas rep -> p ∈ rep /\ status p = Code 200.
Proof.
  unfold Route.paginasAuditadas. intros Hp.
  eapply elem_of_sublist in Hp; [|apply sublist_take].
  apply list_elem_of_In, filter_In in Hp as [Hin Hst].
  split; [by apply list_elem_of_In|].
  unfold status_is in Hst. destruct (status p) as [c|]; [|done].
  by apply Z.eqb_eq in Hst as ->.
Qed.

Lemma audit_pages_elem w paginas e :
  e ∈ audit_pages w paginas ->
  exists p erros,
    p ∈ paginas /\ auditoriaComTimeout w (url p) = Some erros /\ e ∈ erros.
Proof.
  unfold Route.audit_pages. induction paginas as [|p paginas IH]; simpl.
  { intros He. by apply not_elem_of_nil in He. }
  rewrite elem_of_app. intros [He|He].
  - destruct (auditoriaComTimeout w (url p)) as [erros|] eqn:Haudit; simpl in He.
    + exists p, erros. split; [left|done].
    + by apply not_elem_of_nil in He.
  - destruct (IH He) as (p' & erros & Hp' & Haudit & Hin).
    exists p', erros. split; [by right|done].
Qed.

Lemma audit_pages_length w paginas :
  (length (audit_pages w paginas) <= 7 * length paginas)%nat.
Proof.
  unfold Route.audit_pages. induction paginas as [|p paginas IH]; simpl; [lia|].
  rewrite length_app.
  assert (length (default [] (auditoriaComTimeout w (url p))) <= 7)%nat; [|lia].
  unfold Auditoria.auditoriaComTimeout. destruct (Auditoria.in_time w (url p)); [|simpl; lia].
  destruct (auditoriaAvancada w (url p)) as [erros|] eqn:Haudit; [|simpl; lia].
  by apply findings_shape in Haudit as (_ & _ & ?).
Qed.

Lemma select404_elem (erros : list Auditoria.erro) x :
  x ∈ Route.select404 erros <->
  exists e, e ∈ erros /\ Auditoria.tipo e = Auditoria.Erro404 /\ Auditoria.url e = x.
Proof.
  unfold Route.select404. rewrite list_elem_of_In, in_map_iff. split.
  - intros (e & <- & [Hin Hty%bool_decide_eq_true]%filter_In).
    exists e. by rewrite list_elem_of_In.
  - intros (e & Hin%list_elem_of_In & Hty & <-). exists e. split; [done|].
    apply filter_In. split; [done|]. by apply bool_decide_eq_true.
Qed.

(** What a reply with a report says of the run. *)
Lemma auditar_ok (sv : Services) g u (r : relatorio) g' :
  auditar sv g u = (Route.Ok r, g') ->
  exists x log,
    u = Some x
    /\ Js.truthy x = true /\ Js.startsWith x "http" = true
    /\ is_Some (Route.lighthouse sv x)
    /\ crawlSite (Route.web sv) g x 3 = (Returned (Route.rastreamento r), g', log)
    /\ Route.url r = x
    /\ Route.errosAvancados r
       = audit_pages (Route.world sv) (Route.paginasAuditadas (Route.rastreamento r))
    /\ Route.urls404 r = Route.select404 (Route.errosAvancados r).
Proof.
  unfold Route.auditar, Crawler.crawlSite_default. destruct u as [x|]; [|done].
  destruct (negb (Js.truthy x) || negb (Js.startsWith x "http")) eqn:Hguard; [done|].
  apply orb_false_iff in Hguard as [?%negb_false_iff ?%negb_false_iff].
  destruct (Route.lighthouse sv x) as [lhr|] eqn:Hlh; [|done].
  destruct (crawlSite (Route.web sv) g x 3) as [[[rep| |] g1] log] eqn:Hcrawl; try done.
  destruct (Route.summarize sv lhr) as [sc|]; [|done].
  intros [= <- <-]. exists x, log. simpl. split_and!; eauto.
Qed.

(** A second call with the start URL of a call that returned has nothing
    to do. *)
Lemma recrawl_empty web1 web2 g startUrl d1 d2 rep1 g1 log1 :
  0 <= d1 ->
  crawlSite web1 g startUrl d1 = (Returned rep1, g1, log1) ->
  crawlSite web2 g1 startUrl d2 = (Returned [], g1, []).
Proof.
  intros Hd Hfirst.
  pose proof (crawl_seed_visited _ _ _ _ _ _ _ _ _ Hd Hfirst) as Hseen.
  apply crawlSite_returned in Hfirst as (bd & c & Hb & _ & -> & _ & Hq & _).
  unfold Crawler.crawlSite. rewrite Hb. unfold start, push_seed. rewrite Hq. simpl.
  unfold Crawler.queue_cost. simpl.
  pose proof (cost_pos url_hostname url_resolve web2 startUrl bd
                (Crawler.levels_of d2 0) startUrl) as Hpos.
  unfold Crawler.item_cost. simpl.
  destruct (Crawler.cost _ _ _ _ _ _ _) as [|n]; [lia|]. simpl.
  unfold Crawler.body. simpl. rewrite bool_decide_eq_true_2 by done. simpl.
  destruct n; simpl; destruct (glob c) as [v q]; simpl in *; by subst q.
Qed.

(** X13: of a report of the crawl the route audits at most ten pages, in
    the order of the report; each has status 200 there, and no page is
    audited twice, even when the report names a URL twice. *)
Theorem audited_pages web g startUrl maxDepth rep g' log :
  crawlSite web g startUrl maxDepth = (Returned rep, g', log) ->
  (length (Route.paginasAuditadas rep) <= 10)%nat
  /\ Route.paginasAuditadas rep `sublist_of` rep
  /\ (forall p, p ∈ Route.paginasAuditadas rep -> status p = Code 200)
  /\ NoDup (url <$> Route.paginasAuditadas rep).
Proof.
  intros Hrun. split_and!.
  - unfold Route.paginasAuditadas. rewrite length_take. lia.
  - unfold Route.paginasAuditadas. etransitivity; [apply sublist_take|].
    apply List_filter_sublist.
  - intros p Hp. by apply paginasAuditadas_elem in Hp as [_ ?].
  - eapply sublist_NoDup; [|apply sublist_fmap, sublist_take].
    eapply coded_urls_distinct; [done|].
    intros r. unfold status_is. by destruct (status r).
Qed.

(** X14: every URL of [urls404] is the URL of a record of the crawl with
    status 200, whose second request, made by the audit, answered 404.  A
    page that the crawl itself found to be 404 is never in [urls404]. *)
Theorem urls404_of_report (sv : Services) g u (r : relatorio) g' :
  auditar sv g u = (Route.Ok r, g') ->
  (forall x, x ∈ Route.urls404 r ->
      (exists p, p ∈ Route.rastreamento r /\ url p = x /\ status p = Code 200)
      /\ exists location,
           Auditoria.manual_fetch (Route.world sv) x = Some (404, location))
  /\ (forall p, p ∈ Route.rastreamento r -> status p = Code 404 ->
       url p ∉ Route.urls404 r).
Proof.
  intros (x0 & log & _ & _ & _ & _ & Hcrawl & _ & Herros & H404)%auditar_ok.
  assert (forall x, x ∈ Route.urls404 r ->
            (exists p, p ∈ Route.rastreamento r /\ url p = x /\ status p = Code 200)
            /\ exists location,
                 Auditoria.manual_fetch (Route.world sv) x = Some (404, location))
    as Hfirst.
  { intros x. rewrite H404, select404_elem, Herros.
    intros (e & (p & erros & Hp & Haudit & He)%audit_pages_elem & Hty & <-).
    unfold Auditoria.auditoriaComTimeout in Haudit.
    destruct (Auditoria.in_time (Route.world sv) (url p)); [|done].
    pose proof Haudit as (Hwf & _)%findings_shape.
    rewrite Forall_forall in Hwf. destruct (Hwf e He) as [-> _].
    apply paginasAuditadas_elem in Hp as [Hp Hst]. split; [eauto|].
    eapply finding_404; [done|]. rewrite <-Hty. by apply list_elem_of_fmap_2. }
  split; [done|]. intros p Hp Hst Hin.
  destruct (Hfirst _ Hin) as [(p' & Hp' & Hurl & Hst') _].
  assert (p' = p) as ->; [|congruence].
  eapply (NoDup_fmap_eq url (List.filter coded (Route.rastreamento r))).
  - eapply coded_urls_distinct; [done|]. intros r0. unfold coded. by destruct (status r0).
  - apply list_elem_of_In, filter_In. split; [by apply list_elem_of_In|].
    unfold coded. by rewrite Hst'.
  - apply list_elem_of_In, filter_In. split; [by apply list_elem_of_In|].
    unfold coded. by rewrite Hst.
  - done.
Qed.

(** X15: [errosAvancados] has at most seventy entries, and each bears
    the URL of a record of the crawl with status 200. *)
Theorem errosAvancados_of_report (sv : Services) g u (r : relatorio) g' :
  auditar sv g u = (Route.Ok r, g') ->
  (length (Route.errosAvancados r) <= 70)%nat
  /\ forall e, e ∈ Route.errosAvancados r ->
       exists p, p ∈ Route.rastreamento r /\ status p = Code 200 /\ Auditoria.url e = url p.
Proof.
  intros (x0 & log & _ & _ & _ & _ & Hcrawl & _ & -> & _)%auditar_ok. split.
  - pose proof (audit_pages_length (Route.world sv)
                  (Route.paginasAuditadas (Route.rastreamento r))) as Hlen.
    assert (length (Route.paginasAuditadas (Route.rastreamento r)) <= 10)%nat; [|lia].
    unfold Route.paginasAuditadas. rewrite length_take. lia.
  - intros e (p & erros & Hp & Haudit & He)%audit_pages_elem.
    unfold Auditoria.auditoriaComTimeout in Haudit.
    destruct (Auditoria.in_time (Route.world sv) (url p)); [|done].
    apply findings_shape in Haudit as (Hwf & _).
    rewrite Forall_forall in Hwf. destruct (Hwf e He) as [Hurl _].
    apply paginasAuditadas_elem in Hp as [Hp Hst]. eauto.
Qed.

(** X16: the crawler's [visited] outlives a request.  When two requests
    for the same URL are both answered with a report, the second report
    has an empty crawl, no findings and no [urls404], and the crawler is
    left as the first request left it. *)
Theorem second_audit_is_empty (sv1 sv2 : Services) g u (r1 r2 : relatorio) g1 g2 :
  auditar sv1 g u = (Route.Ok r1, g1) ->
  auditar sv2 g1 u = (Route.Ok r2, g2) ->
  Route.rastreamento r2 = []
  /\ Route.errosAvancados r2 = []
  /\ Route.urls404 r2 = []
  /\ g2 = g1.
Proof.
  intros (x & log1 & -> & _ & _ & _ & Hcrawl1 & _)%auditar_ok.
  intros (x' & log2 & [= <-] & _ & _ & _ & Hcrawl2 & _ & Herros & H404)%auditar_ok.
  assert (0 <= 3) as Hdepth by lia.
  rewrite (recrawl_empty _ (Route.web sv2) _ _ _ 3 _ _ _ Hdepth Hcrawl1) in Hcrawl2.
  injection Hcrawl2 as Hrep <- _.
  rewrite H404, Herros, <-Hrep. done.
Qed.

(** X18: the route calls the crawler without a depth, so the crawl of a
    report goes three links deep at most, and its records are those the
    crawler returned for the URL of the request. *)
Theorem rastreamento_of_report (sv : Services) g u (r : relatorio) g' :
  auditar sv g u = (Route.Ok r, g') ->
  u = Some (Route.url r)
  /\ (exists log,
        crawlSite (Route.web sv) g (Route.url r) 3
        = (Returned (Route.rastreamento r), g', log))
  /\ forall p, p ∈ Route.rastreamento r -> depth p <= 3.
Proof.
  intros (x & log & -> & _ & _ & _ & Hcrawl & -> & _)%auditar_ok.
  split_and!; [done|eauto|].
  intros p Hp. by eapply report_depth_le.
Qed.

End RouteFacts.

(** ** The check against [robots.txt] *)

Section Robots.

Variable url_resolve : string -> string -> option string.
Variable url_pathname : string -> option string.

Local Abbreviation auditoriaAvancada := (Auditoria.auditoriaAvancada url_resolve url_pathname).

Lemma prefix_app_l p q s : String.prefix (p +:+ q) s = true -> String.prefix p s = true.
Proof.
  revert s. induction p as [|a p IH]; intros s; [by destruct s|].
  destruct s as [|b s]; [done|]. simpl.
  destruct (Ascii.ascii_dec a b); [apply IH|done].
Qed.

Lemma includes_app_l s p q : Js.includes s (p +:+ q) = true -> Js.includes s p = true.
Proof.
  induction s as [|a s IH]; cbn [Js.includes]; rewrite !orb_true_iff.
  - intros [H|?]; [|done]. left. by eapply prefix_app_l.
  - intros [H|H]; [left; by eapply prefix_app_l|right; by apply IH].
Qed.

(** X17: the check against [robots.txt] is a test for a substring: a page
    is found blocked as soon as the text holds a [Disallow] rule whose
    path begins with the path of the page, so a rule for [/team] blocks
    the page at [/]. *)
Theorem robots_rule_blocks_prefix w u robotsUrl txt path rest m :
  url_resolve "/robots.txt" u = Some robotsUrl ->
  Auditoria.robots_txt w u robotsUrl = Some txt ->
  url_pathname u = Some path ->
  Js.includes txt (("Disallow: " +:+ path) +:+ rest) = true ->
  Auditoria.inspect w u = Some m ->
  exists others,
    auditoriaAvancada w u
    = Some (Auditoria.mkErro Auditoria.BloqueadoPorRobots None u :: others).
Proof.
  intros Hres Htxt Hpath Hrule Hm.
  unfold Auditoria.auditoriaAvancada, Auditoria.robots_check.
  rewrite Hm, Hres. simpl. rewrite Htxt. simpl. rewrite Hpath. simpl.
  rewrite (includes_app_l _ _ _ Hrule). simpl. eauto.
Qed.

End Robots.

(** ** Runs of the crawler and of the server on the first site *)

Section Runs2.

Local Abbreviation run_site := (Toy.crawlSite Toy.site Toy.fresh Toy.home 3).
Local Abbreviation site_log := [Toy.home; Toy.about; Toy.team].
Local Abbreviation first := (ToyServer.auditar ToyServer.services Toy.fresh (Some Toy.home)).
Local Abbreviation second := (ToyServer.auditar ToyServer.services first.2 (Some Toy.home)).
Local Abbreviation home_page :=
  (Toy.page " Home " ["/about"; "http://b.test/x"; "/about"; "#top"]).

Lemma run_site_log : run_site = (Returned Toy.site_report, run_site.1.2, site_log).
Proof. vm_compute. reflexivity. Qed.

Lemma first_eq : first = (Route.Ok ToyServer.relatorio1, first.2).
Proof. vm_compute. reflexivity. Qed.

Lemma second_eq : second = (Route.Ok ToyServer.relatorio2, second.2).
Proof. vm_compute. reflexivity. Qed.

Lemma visited_after_call_witness :
  visited run_site.1.2 = visited Toy.fresh ∪ list_to_set site_log
  /\ NoDup site_log
  /\ (forall x, x ∈ site_log -> x ∉ visited Toy.fresh)
  /\ queue run_site.1.2 = [].
Proof.
  apply (visited_after_call Toy.hostname Toy.resolve Toy.site Toy.fresh Toy.home 3
           Toy.site_report).
  apply run_site_log.
Defined.

Lemma report_transcript_witness :
  (exists deps : list Z,
      length deps = length site_log
      /\ Toy.site_report
         = concat (zip_with (Crawler.records_for Toy.hostname Toy.resolve Toy.site
                               Toy.home "a.test") site_log deps))
  /\ (length site_log <= length Toy.site_report <= 2 * length site_log)%nat.
Proof.
  apply (report_transcript Toy.hostname Toy.resolve Toy.site Toy.fresh Toy.home 3 "a.test"
           Toy.site_report run_site.1.2 site_log).
  - reflexivity.
  - apply run_site_log.
Defined.

Lemma report_urls_distinct_witness :
  url <$> Toy.site_report = site_log /\ NoDup (url <$> Toy.site_report).
Proof.
  apply (report_urls_distinct Toy.hostname Toy.resolve Toy.site Toy.fresh Toy.home 3 "a.test"
           Toy.site_report run_site.1.2 site_log).
  - reflexivity.
  - apply run_site_log.
  - intros x code d Hx Hw.
    apply elem_of_cons in Hx as [->|[->|[->|Hx]%elem_of_cons]%elem_of_cons].
    + vm_compute in Hw. injection Hw as <- <-. vm_compute. eauto.
    + vm_compute in Hw. injection Hw as <- <-. vm_compute. eauto.
    + vm_compute in Hw. discriminate Hw.
    + by apply not_elem_of_nil in Hx.
Defined.

Lemma one_coded_record_per_url_witness :
  NoDup (url <$> List.filter coded Toy.site_report)
  /\ forall c, NoDup (url <$> List.filter (status_is c) Toy.site_report).
Proof.
  apply (one_coded_record_per_url Toy.hostname Toy.resolve Toy.site Toy.fresh Toy.home 3
           Toy.site_report run_site.1.2 site_log).
  apply run_site_log.
Defined.

Lemma depth_zero_requests_seed_witness :
  [Toy.home] = if decide (Toy.home ∈ visited Toy.fresh) then [] else [Toy.home].
Proof.
  apply (depth_zero_requests_seed Toy.hostname Toy.resolve Toy.site Toy.fresh Toy.home "a.test"
           [success_record Toy.home 200 home_page 0]
           (Toy.crawlSite Toy.site Toy.fresh Toy.home 0).1.2 [Toy.home]).
  - reflexivity.
  - reflexivity.
  - vm_compute. reflexivity.
Defined.

Lemma negative_depth_idle_witness :
  Toy.crawlSite Toy.site Toy.fresh Toy.home (-1)
  = (Returned [], {| visited := visited Toy.fresh; queue := [] |}, []).
Proof.
  apply (negative_depth_idle Toy.hostname Toy.resolve Toy.site Toy.fresh Toy.home (-1) "a.test").
  - apply Crawler.reachable_fresh.
  - lia.
  - reflexivity.
Defined.

Lemma requests_same_host_witness : "a.test" = "a.test".
Proof.
  apply (requests_same_host Toy.hostname Toy.resolve Toy.site Toy.fresh Toy.home 3 "a.test"
           Toy.site_report run_site.1.2 site_log Toy.about "a.test").
  - apply Crawler.reachable_fresh.
  - reflexivity.
  - apply run_site_log.
  - right. left.
  - reflexivity.
Defined.

Lemma links_of_page_witness :
  Toy.about ∈ [Toy.about; Toy.about] <->
  exists h,
    h ∈ Cheerio.map_attr "href" (Cheerio.select (TagAttr "a" "href") home_page)
    /\ h <> EmptyString
    /\ Js.startsWith h "#" = false
    /\ Js.startsWith h "mailto:" = false
    /\ Js.startsWith h "tel:" = false
    /\ (if Js.startsWith h "/" then Toy.resolve h Toy.home = Some Toy.about
        else Toy.about = h)
    /\ Toy.hostname Toy.about = Some "a.test".
Proof.
  apply (links_of_page Toy.hostname Toy.resolve Toy.home "a.test" home_page
           [Toy.about; Toy.about] Toy.about).
  vm_compute. reflexivity.
Defined.

Lemma audit_findings_witness :
  (forall e, e ∈ ToyServer.erros_home ->
      Auditoria.url e = Toy.home
      /\ (is_Some (Auditoria.quantidade e) <-> Auditoria.tipo e = Auditoria.ImagensSemAlt))
  /\ Auditoria.tipo <$> ToyServer.erros_home
     `sublist_of` [Auditoria.BloqueadoPorRobots; Auditoria.ErroAoAcessarRobots;
                   Auditoria.Erro404; Auditoria.LoopDeRedirecionamento;
                   Auditoria.ErroDeConexao; Auditoria.TituloAusente;
                   Auditoria.MetaDescriptionAusente; Auditoria.ExcessoDeH1;
                   Auditoria.SemH2; Auditoria.ImagensSemAlt]
  /\ NoDup (Auditoria.tipo <$> ToyServer.erros_home)
  /\ (length ToyServer.erros_home <= 7)%nat.
Proof.
  apply (audit_findings Toy.resolve ToyServer.pathname ToyServer.world Toy.home
           ToyServer.erros_home).
  vm_compute. reflexivity.
Defined.

Lemma audit_status_findings_witness :
  (Auditoria.Erro404 ∈ Auditoria.tipo <$> ToyServer.erros_about
   <-> exists location,
        Auditoria.manual_fetch ToyServer.world Toy.about = Some (404, location))
  /\ (Auditoria.LoopDeRedirecionamento ∈ Auditoria.tipo <$> ToyServer.erros_about
      <-> exists st,
           Auditoria.manual_fetch ToyServer.world Toy.about = Some (st, Some Toy.about)
           /\ 300 <= st < 400)
  /\ (Auditoria.ErroDeConexao ∈ Auditoria.tipo <$> ToyServer.erros_about
      <-> Auditoria.manual_fetch ToyServer.world Toy.about = None).
Proof.
  apply (audit_status_findings Toy.resolve ToyServer.pathname ToyServer.world Toy.about
           ToyServer.erros_about).
  vm_compute. reflexivity.
Defined.

Lemma audited_pages_witness :
  (length (Route.paginasAuditadas Toy.site_report) <= 10)%nat
  /\ Route.paginasAuditadas Toy.site_report `sublist_of` Toy.site_report
  /\ (forall p, p ∈ Route.paginasAuditadas Toy.site_report -> status p = Code 200)
  /\ NoDup (url <$> Route.paginasAuditadas Toy.site_report).
Proof.
  apply (audited_pages Toy.hostname Toy.resolve Toy.site Toy.fresh Toy.home 3
           Toy.site_report run_site.1.2 site_log).
  apply run_site_log.
Defined.

Lemma urls404_of_report_witness :
  (forall x, x ∈ Route.urls404 ToyServer.relatorio1 ->
      (exists p,
          p ∈ Route.rastreamento ToyServer.relatorio1 /\ url p = x /\ status p = Code 200)
      /\ exists location,
           Auditoria.manual_fetch (Route.world ToyServer.services) x = Some (404, location))
  /\ (forall p, p ∈ Route.rastreamento ToyServer.relatorio1 -> status p = Code 404 ->
       url p ∉ Route.urls404 ToyServer.relatorio1).
Proof.
  apply (urls404_of_report Toy.hostname Toy.resolve ToyServer.pathname unit unit
           ToyServer.services Toy.fresh (Some Toy.home) ToyServer.relatorio1 first.2).
  apply first_eq.
Defined.

Lemma errosAvancados_of_report_witness :
  (length (Route.errosAvancados ToyServer.relatorio1) <= 70)%nat
  /\ forall e, e ∈ Route.errosAvancados ToyServer.relatorio1 ->
       exists p,
         p ∈ Route.rastreamento ToyServer.relatorio1
         /\ status p = Code 200 /\ Auditoria.url e = url p.
Proof.
  apply (errosAvancados_of_report Toy.hostname Toy.resolve ToyServer.pathname unit unit
           ToyServer.services Toy.fresh (Some Toy.home) ToyServer.relatorio1 first.2).
  apply first_eq.
Defined.

Lemma second_audit_is_empty_witness :
  Route.rastreamento ToyServer.relatorio2 = []
  /\ Route.errosAvancados ToyServer.relatorio2 = []
  /\ Route.urls404 ToyServer.relatorio2 = []
  /\ second.2 = first.2.
Proof.
  apply (second_audit_is_empty Toy.hostname Toy.resolve ToyServer.pathname unit unit
           ToyServer.services ToyServer.services Toy.fresh (Some Toy.home)
           ToyServer.relatorio1 ToyServer.relatorio2 first.2 second.2).
  - apply first_eq.
  - apply second_eq.
Defined.

Lemma rastreamento_of_report_witness :
  Some Toy.home = Some (Route.url ToyServer.relatorio1)
  /\ (exists log,
        Toy.crawlSite (Route.web ToyServer.services) Toy.fresh
          (Route.url ToyServer.relatorio1) 3
        = (Returned (Route.rastreamento ToyServer.relatorio1), first.2, log))
  /\ forall p, p ∈ Route.rastreamento ToyServer.relatorio1 -> depth p <= 3.
Proof.
  apply (rastreamento_of_report Toy.hostname Toy.resolve ToyServer.pathname unit unit
           ToyServer.services Toy.fresh (Some Toy.home) ToyServer.relatorio1 first.2).
  apply first_eq.
Defined.

Lemma robots_rule_blocks_prefix_witness :
  exists others,
    ToyServer.auditoriaAvancada ToyServer.world Toy.home
    = Some (Auditoria.mkErro Auditoria.BloqueadoPorRobots None Toy.home :: others).
Proof.
  apply (robots_rule_blocks_prefix Toy.resolve ToyServer.pathname ToyServer.world Toy.home
           "http://a.test/robots.txt" "User-agent: * Disallow: /team" "/" "team"
           (Auditoria.mkMeta "Home" "" 1 0 2)); reflexivity.
Defined.

End Runs2.

(** ** Which links are in scope *)

Section SameHost.

Variable url_hostname : string -> option string.
Variable url_resolve : string -> string -> option string.

Local Abbreviation crawlSite := (Crawler.crawlSite url_hostname url_resolve).
Local Abbreviation body := (Crawler.body url_hostname url_resolve).
Local Abbreviation page_links := (Crawler.page_links url_hostname url_resolve).
Local Abbreviation absolute := (Crawler.absolute url_resolve).
Local Abbreviation reachable := (Crawler.reachable url_hostname url_resolve).

(** A resolved [href] on the host of the start URL is a link of the page. *)
Lemma same_host_link startUrl baseDomain d links h l :
  page_links startUrl baseDomain d = Some links ->
  h ∈ hrefs d ->
  absolute startUrl h = Some l ->
  url_hostname l = Some baseDomain ->
  l ∈ links.
Proof.
  unfold Crawler.page_links. intros Hp Hh Habs Hhost.
  destruct (map_throwing (absolute startUrl) (hrefs d)) as [resolved|] eqn:Hm;
    simpl in Hp; [|done].
  eapply filter_throwing_keeps; [done| |].
  - apply (map_throwing_elem _ _ _ _ Hm). eauto.
  - unfold Crawler.same_host. rewrite Hhost. simpl. by rewrite bool_decide_eq_true_2.
Qed.

(** C6 (as amended): a link is put on the queue only when the host name
    the URL parser gives for it is that of the start URL, string for
    string; and nothing else is looked at: every unvisited link of a
    fetched page whose parsed host name is that of the start URL is put on
    the queue, whatever its scheme, its port or the letters it is written
    in.  Every record whose URL has a host name has that of the start
    URL. *)
Theorem report_same_host web g startUrl maxDepth baseDomain rep g' log :
  reachable g ->
  url_hostname startUrl = Some baseDomain ->
  crawlSite web g startUrl maxDepth = (Returned rep, g', log) ->
  (forall it c it',
      it' ∈ queue (glob (body web startUrl baseDomain maxDepth it c)) ->
      it' ∉ queue (glob c) ->
      url_hostname (item_url it') = Some baseDomain)
  /\ (forall it c code d links h l,
        item_url it ∉ visited (glob c) ->
        item_depth it <= maxDepth ->
        web (item_url it) = Response code d ->
        page_links startUrl baseDomain d = Some links ->
        h ∈ hrefs d ->
        absolute startUrl h = Some l ->
        url_hostname l = Some baseDomain ->
        l <> item_url it ->
        l ∉ visited (glob c) ->
        mkItem l (item_depth it + 1)
        ∈ queue (glob (body web startUrl baseDomain maxDepth it c)))
  /\ (forall r h, r ∈ rep -> url_hostname (url r) = Some h -> h = baseDomain).
Proof.
  intros Hg Hb (bd & c & Hb' & -> & _ & _ & _ & Hinv)%crawlSite_returned. simplify_eq.
  split_and!.
  - intros it c0 it' Hin Hnew.
    by destruct (body_enqueues_same_host _ _ _ _ _ _ _ _ _ Hin).
  - intros it c0 code d links h l Hv Hd Hw Hl Hh Habs Hhost Hne Hnew.
    pose proof (same_host_link _ _ _ _ _ _ Hl Hh Habs Hhost) as Hin.
    destruct (body_cases url_hostname url_resolve web startUrl baseDomain maxDepth it c0)
      as [[[?|?] _]
         |(_ & _ & [(code' & d' & links' & Hw' & Hl' & ->)
                   |[(code' & d' & Hw' & Hl' & _)|(rs & Hw' & _)]])];
      [done|lia| |congruence..].
    rewrite Hw in Hw'. simplify_eq. simpl.
    apply elem_of_app. right.
    apply (list_elem_of_fmap_2 (fun l => mkItem l (item_depth it + 1))).
    apply list_elem_of_filter. split; [|done].
    rewrite elem_of_union, elem_of_singleton. tauto.
  - assert (Inv.scoped url_hostname baseDomain c) as [_ Hrep].
    { apply Hinv; [apply scoped_body|].
      pose proof (reachable_leftover _ _ _ Hg) as Hleft. rewrite Forall_forall in Hleft.
      split; simpl; [|intros r Hr; by apply not_elem_of_nil in Hr].
      intros it [Hin| ->%list_elem_of_singleton]%elem_of_app h Hh; simpl in *.
      - destruct (Hleft it Hin) as [_ Hnone]. congruence.
      - congruence. }
    intros r h Hr. by apply Hrep.
Qed.

End SameHost.

Section SameHostRuns.

Local Abbreviation run_site := (Toy.crawlSite Toy.site Toy.fresh Toy.home 3).
Local Abbreviation run_mixed := (Toy.crawlSite Toy.site_mixed Toy.fresh Toy.home 3).

(** C6, as stated, fails: from the start URL [http://a.test/] the links
    [https://a.test/secure], [http://a.test:8080/admin] and
    [http://A.TEST/Upper], which differ from it in scheme, in port and in
    the letters of the host, are requested and reported, for the parser
    gives all of them the host name [a.test]; the link to the subdomain
    [www.a.test] is not. *)
Lemma same_host_ignores_scheme_port_case :
  Toy.site_mixed Toy.home = Response 200 Toy.mixed_home
  /\ hrefs Toy.mixed_home
     = ["https://a.test/secure"; "http://a.test:8080/admin"; "http://A.TEST/Upper";
        "http://www.a.test/sub"]
  /\ run_mixed.2
     = [Toy.home; "https://a.test/secure"; "http://a.test:8080/admin"; "http://A.TEST/Upper"]
  /\ (exists rep,
        run_mixed.1.1 = Returned rep
        /\ url <$> rep
           = [Toy.home; "https://a.test/secure"; "http://a.test:8080/admin";
              "http://A.TEST/Upper"])
  /\ Toy.hostname Toy.home = Some "a.test"
  /\ Toy.hostname "https://a.test/secure" = Some "a.test"
  /\ Toy.hostname "http://a.test:8080/admin" = Some "a.test"
  /\ Toy.hostname "http://A.TEST/Upper" = Some "a.test"
  /\ Toy.hostname "http://www.a.test/sub" = Some "www.a.test".
Proof.
  split_and!; try (by vm_compute).
  eexists. split; by vm_compute.
Qed.

Lemma report_same_host_witness :
  (forall it c it',
      it' ∈ queue (glob (Crawler.body Toy.hostname Toy.resolve Toy.site Toy.home "a.test" 3 it c)) ->
      it' ∉ queue (glob c) ->
      Toy.hostname (item_url it') = Some "a.test")
  /\ (forall it c code d links h l,
        item_url it ∉ visited (glob c) ->
        item_depth it <= 3 ->
        Toy.site (item_url it) = Response code d ->
        Crawler.page_links Toy.hostname Toy.resolve Toy.home "a.test" d = Some links ->
        h ∈ hrefs d ->
        Crawler.absolute Toy.resolve Toy.home h = Some l ->
        Toy.hostname l = Some "a.test" ->
        l <> item_url it ->
        l ∉ visited (glob c) ->
        mkItem l (item_depth it + 1)
        ∈ queue (glob (Crawler.body Toy.hostname Toy.resolve Toy.site Toy.home "a.test" 3
                         it c)))
  /\ (forall r h, r ∈ Toy.site_report -> Toy.hostname (url r) = Some h -> h = "a.test").
Proof.
  apply (report_same_host Toy.hostname Toy.resolve Toy.site Toy.fresh Toy.home 3 "a.test"
           Toy.site_report run_site.1.2 run_site.2).
  - apply Crawler.reachable_fresh.
  - reflexivity.
  - apply run_site_eq.
Defined.

End SameHostRuns.
